(** * piccolo: the SELECT query builder and its response shaping

    A shallow embedding of [piccolo/query/methods/select.py]: the aggregate
    selectables, the derivation of LEFT JOIN fragments from call chains, the
    assembly of the query string, the response handler and the result views
    ([First], [SelectList], [SelectJSON]).

    Python objects that are mutated in place are modelled by explicit state:
    the [Select] object itself, and the [table_alias] attribute of every
    foreign-key object met in a call chain (keyed by object identity). *)

From stdpp Require Import base option list strings gmap pretty.

Local Open Scope string_scope.
Set Warnings "-register-all".

(** ** Python values *)

(** Hashable scalars: what may be a [dict] key or a [set] member. *)
Inductive Atom :=
| ANone
| AInt (z : Z)
| AStr (s : string)
| ADatetime (timestamp : Z) (tzinfo : option string).

#[global] Instance Atom_eq_dec : EqDecision Atom.
Proof. solve_decision. Defined.

Definition Atom_enc (a : Atom) : unit + Z + string + Z * option string :=
  match a with
  | ANone => inl (inl (inl tt))
  | AInt z => inl (inl (inr z))
  | AStr s => inl (inr s)
  | ADatetime t tz => inr (t, tz)
  end.

Definition Atom_dec (x : unit + Z + string + Z * option string) : Atom :=
  match x with
  | inl (inl (inl _)) => ANone
  | inl (inl (inr z)) => AInt z
  | inl (inr s) => AStr s
  | inr (t, tz) => ADatetime t tz
  end.

#[global] Instance Atom_countable : Countable Atom.
Proof. apply (inj_countable' Atom_enc Atom_dec). by intros []. Defined.

(** A [dict] keeps its insertion order, which [values()] exposes: rows are
    association lists with pairwise distinct keys. *)
Inductive Value :=
| VAtom (a : Atom)
| VList (l : list Value)
| VDict (d : list (string * Value)).

Abbreviation VNone := (VAtom ANone).
Abbreviation VInt z := (VAtom (AInt z)).
Abbreviation VStr s := (VAtom (AStr s)).

Definition Row : Type := list (string * Value).

(** [d.get(k)] *)
Fixpoint dict_get (k : string) (d : Row) : option Value :=
  match d with
  | [] => None
  | (k', v) :: d' => if decide (k' = k) then Some v else dict_get k d'
  end.

(** [d[k] = v]: an existing key keeps its position. *)
Fixpoint dict_set (k : string) (v : Value) (d : Row) : Row :=
  match d with
  | [] => [(k, v)]
  | (k', v') :: d' =>
      if decide (k' = k) then (k, v) :: d' else (k', v') :: dict_set k v d'
  end.

Definition dict_keys (d : Row) : list string := d.*1.
Definition dict_values (d : Row) : list Value := d.*2.

(** ** Exceptions and the effect monad *)

Inductive Exception :=
| CallChainError          (* Exception("Joining more than 10 tables ...") *)
| ValueError (msg : string)
| KeyError (key : string)
| TypeError (msg : string)
| AttributeError (msg : string)
| IndexError
| ExecutorError (msg : string).

#[global] Instance Exception_eq_dec : EqDecision Exception.
Proof. solve_decision. Defined.

Definition Result (A : Type) : Type := Exception + A.

Section Effects.
Context {S : Type}.

(** A computation reads and writes the state [S] and either returns or
    raises; what was written before a [raise] stays written. *)
Definition Eff (A : Type) : Type := S → Result A * S.

Definition ret {A} (a : A) : Eff A := λ s, (inr a, s).
Definition raise {A} (e : Exception) : Eff A := λ s, (inl e, s).
Definition bind {A B} (m : Eff A) (k : A → Eff B) : Eff B :=
  λ s, match m s with
       | (inr a, s') => k a s'
       | (inl e, s') => (inl e, s')
       end.
Definition get : Eff S := λ s, (inr s, s).
Definition modify (f : S → S) : Eff unit := λ s, (inr tt, f s).
Definition lift {A} (r : Result A) : Eff A := λ s, (r, s).

(** [[f x for x in xs]] with an effectful [f] *)
Fixpoint map_eff {A B} (f : A → Eff B) (xs : list A) : Eff (list B) :=
  match xs with
  | [] => ret []
  | x :: xs' => bind (f x) (λ y, bind (map_eff f xs') (λ ys, ret (y :: ys)))
  end.
End Effects.

Arguments Eff : clear implicits.

Notation "'let*' x ':=' m 'in' k" := (bind m (λ x, k))
  (at level 10, x name, m at level 100, k at level 200, only parsing).
Notation "'run*' m 'in' k" := (bind m (λ _, k))
  (at level 10, m at level 100, k at level 200, only parsing).

(** The same for pure code that can raise. *)
Definition rbind {A B} (r : Result A) (k : A → Result B) : Result B :=
  match r with inl e => inl e | inr a => k a end.

Fixpoint map_result {A B} (f : A → Result B) (xs : list A) : Result (list B) :=
  match xs with
  | [] => inr []
  | x :: xs' => rbind (f x) (λ y, rbind (map_result f xs') (λ ys, inr (y :: ys)))
  end.

(** ** The schema objects the query reads *)

Inductive EngineType := sqlite | postgres | cockroach.

#[global] Instance EngineType_eq_dec : EqDecision EngineType.
Proof. solve_decision. Defined.

(** [column.value_type] *)
Inductive PyType :=
| py_int | py_Decimal | py_float | py_str | py_bool | py_bytes
| py_datetime | py_UUID | py_dict | py_list.

#[global] Instance PyType_eq_dec : EqDecision PyType.
Proof. solve_decision. Defined.

Inductive ColumnKind :=
| PlainColumn
| JSON
| JSONB
| Timestamptz (tz : string).

#[global] Instance ColumnKind_eq_dec : EqDecision ColumnKind.
Proof. solve_decision. Defined.

(** A link of a call chain. [key_object] is the identity of the Python
    object: two links with the same identity share one [table_alias]
    attribute, which [_get_joins] writes and reads back. *)
Record ForeignKey := {
  key_object : positive;
  key_tablename : string;            (* key._meta.table._meta.tablename *)
  key_formatted_tablename : string;  (* key._meta.table._meta.get_formatted_tablename() *)
  key_name : string;                 (* key._meta.name *)
  key_right_tablename : string;      (* key._foreign_key_meta.resolved_references
                                          ._meta.get_formatted_tablename() *)
  key_pk_name : string;              (* key._foreign_key_meta.resolved_target_column._meta.name *)
}.

#[global] Instance ForeignKey_eq_dec : EqDecision ForeignKey.
Proof. solve_decision. Defined.

Record Column := {
  column_name : string;              (* _meta.name *)
  call_chain : list ForeignKey;      (* _meta.call_chain *)
  value_type : PyType;
  secret : bool;                     (* _meta.secret *)
  column_kind : ColumnKind;
  column_alias : string;             (* _get_alias() *)
}.

#[global] Instance Column_eq_dec : EqDecision Column.
Proof. solve_decision. Defined.

Inductive QueryString :=
| QS (template : string) (args : list QueryString).

Record Table := {
  tablename : string;
  formatted_tablename : string;      (* _meta.get_formatted_tablename() *)
  columns : list Column;             (* _meta.columns, all_columns() *)
  primary_key : Column;              (* _meta.primary_key *)
  engine_type : EngineType;          (* _meta.db.engine_type *)
}.

Record M2MSelect := {
  m2m_name : string;                 (* m2m._meta.name *)
  m2m_secondary_table : Table;       (* m2m._meta.secondary_table *)
  m2m_columns : list Column;
  m2m_as_list : bool;
  m2m_load_json : bool;
  m2m_serialisation_safe : bool;
}.

Definition is_numeric_column (column : Column) : bool :=
  bool_decide (value_type column ∈ [py_int; py_Decimal; py_float]).

(** *** Aggregate selectables *)

Record Avg := { avg_column : Column; avg_alias : string }.
Record Sum := { sum_column : Column; sum_alias : string }.
Record Max := { max_column : Column; max_alias : string }.
Record Min := { min_column : Column; min_alias : string }.
Record Count := {
  count_column : option Column;
  count_distinct : option (list Column);
  count_alias : string;
}.

Definition Avg_init (column : Column) (alias : string) : Result Avg :=
  if is_numeric_column column
  then inr {| avg_column := column; avg_alias := alias |}
  else inl (ValueError "Column type must be numeric to run the query.").

Definition Sum_init (column : Column) (alias : string) : Result Sum :=
  if is_numeric_column column
  then inr {| sum_column := column; sum_alias := alias |}
  else inl (ValueError "Column type must be numeric to run the query.").

Definition Max_init (column : Column) (alias : string) : Result Max :=
  inr {| max_column := column; max_alias := alias |}.

Definition Min_init (column : Column) (alias : string) : Result Min :=
  inr {| min_column := column; min_alias := alias |}.

(** Truth value of an optional sequence: [None] and [[]] are false. *)
Definition truthy_seq {A} (o : option (list A)) : bool :=
  match o with Some (_ :: _) => true | _ => false end.

Definition Count_init (column : option Column) (distinct : option (list Column))
    (alias : string) : Result Count :=
  if truthy_seq distinct && bool_decide (is_Some column)
  then inl (ValueError "Only specify `column` or `distinct`")
  else inr {| count_column := column; count_distinct := distinct;
              count_alias := alias |}.

Inductive Selectable :=
| SelColumn (c : Column)
| SelReadable (template : string) (readable_columns : list Column)
| SelM2M (m : M2MSelect)
| SelRaw (querystring : QueryString)
| SelAvg (a : Avg)
| SelCount (c : Count)
| SelMax (m : Max)
| SelMin (m : Min)
| SelSum (s : Sum).

(** *** Clause objects, as far as [select.py] reads them *)

Record Where := {
  where_querystring : QueryString;
  where_columns : list Column;
}.

Record OrderByItem := {
  item_columns : list Column;
  item_ascending : bool;
}.

Record OrderBy := {
  order_by_items : list OrderByItem;
  order_by_querystring : QueryString;
}.

Record GroupBy := { group_by_querystring : QueryString }.
Record AsOf := { as_of_querystring : QueryString }.
Record Limit := { limit_number : Z }.
Record Offset := { offset_number : Z }.

Record Distinct := {
  distinct_enabled : bool;
  distinct_on : option (list Column);
}.

Record Output := {
  as_list : bool;
  as_json : bool;
  load_json_output : bool;
  nested : bool;
}.

(** The query object: [table], [exclude_secrets] and the state of each
    delegate. *)
Record Select := {
  table : Table;
  exclude_secrets : bool;
  selected_columns : list Selectable;   (* columns_delegate.selected_columns *)
  _where : option Where;                (* where_delegate._where *)
  _order_by : OrderBy;                  (* order_by_delegate._order_by *)
  _group_by : option GroupBy;
  _distinct : Distinct;
  _limit : option Limit;
  _offset : option Offset;
  _as_of : option AsOf;
  _output : Output;
  callbacks : list (Value → Value);     (* callback_delegate, success kind *)
}.

(** What the interpreter holds while a query is built and run: the query
    object and the [_meta.table_alias] attribute of the key objects. *)
Record World := {
  query : Select;
  table_alias : gmap positive string;
}.

Definition set_query (q : Select) (w : World) : World :=
  {| query := q; table_alias := table_alias w |}.

Definition set_selected_columns (cols : list Selectable) (q : Select) : Select :=
  {| table := table q; exclude_secrets := exclude_secrets q;
     selected_columns := cols; _where := _where q; _order_by := _order_by q;
     _group_by := _group_by q; _distinct := _distinct q; _limit := _limit q;
     _offset := _offset q; _as_of := _as_of q; _output := _output q;
     callbacks := callbacks q |}.

Definition set_limit (l : option Limit) (q : Select) : Select :=
  {| table := table q; exclude_secrets := exclude_secrets q;
     selected_columns := selected_columns q; _where := _where q;
     _order_by := _order_by q; _group_by := _group_by q;
     _distinct := _distinct q; _limit := l; _offset := _offset q;
     _as_of := _as_of q; _output := _output q; callbacks := callbacks q |}.

(** [Select.limit]: [self.limit_delegate.limit(number)] *)
Definition limit (number : Z) (q : Select) : Select :=
  set_limit (Some {| limit_number := number |}) q.

(** [key._meta.table_alias = alias] *)
Definition write_table_alias (key : ForeignKey) (alias : string) : Eff World unit :=
  modify (λ w, {| query := query w;
                  table_alias := <[key_object key := alias]> (table_alias w) |}).

(** [key._meta.table_alias] inside an f-string; an attribute never
    assigned is [None]. *)
Definition read_table_alias (key : ForeignKey) : Eff World string :=
  let* w := get in ret (default "None" (table_alias w !! key_object key)).

(** ** Join derivation *)

Definition dquote : string := String (Ascii.ascii_of_nat 34) EmptyString.

(** [list(OrderedDict.fromkeys(l))]: a key already present keeps its place,
    a new one goes to the end. *)
Definition fromkeys_step (acc : list string) (x : string) : list string :=
  if decide (x ∈ acc) then acc else (acc ++ [x])%list.

Definition fromkeys (l : list string) : list string :=
  foldl fromkeys_step [] l.

Fixpoint enumerate {A} (start : nat) (l : list A) : list (nat * A) :=
  match l with
  | [] => []
  | x :: l' => (start, x) :: enumerate (S start) l'
  end.

(** ["$".join(f"{_key._meta.table._meta.tablename}${_key._meta.name}" for _key in chain)] *)
Definition chain_alias (chain : list ForeignKey) : string :=
  String.concat "$" ((λ _key, key_tablename _key +:+ "$" +:+ key_name _key) <$> chain).

Definition left_join (right_tablename table_alias left_tablename key_name pk_name : string)
    : string :=
  "LEFT JOIN " +:+ right_tablename +:+ " " +:+ dquote +:+ table_alias +:+ dquote
  +:+ " ON "
  +:+ "(" +:+ left_tablename +:+ "." +:+ dquote +:+ key_name +:+ dquote
  +:+ " = " +:+ dquote +:+ table_alias +:+ dquote +:+ "." +:+ dquote +:+ pk_name
  +:+ dquote +:+ ")".

(** The left-hand table of the join at [index], as the loop body obtains
    it. *)
Definition left_tablename_at (chain : list ForeignKey) (index : nat) (key : ForeignKey)
    : Eff World string :=
  if decide (0 < index)%nat
  then match chain !! (index - 1)%nat with
       | Some previous => read_table_alias previous
       | None => raise IndexError
       end
  else ret (key_formatted_tablename key).

(** One iteration of [for index, key in enumerate(column._meta.call_chain, 0)]. *)
Definition join_of_link (chain : list ForeignKey) (index : nat) (key : ForeignKey)
    : Eff World string :=
  let alias := chain_alias (take (S index) chain) in
  run* write_table_alias key alias in
  let* left_tablename := left_tablename_at chain index key in
  let right_tablename := key_right_tablename key in
  let* pk_name := match chain !! index with
                  | Some k => ret (key_pk_name k)
                  | None => raise IndexError
                  end in
  ret (left_join right_tablename alias left_tablename (key_name key) pk_name).

(** The [_joins] of one column. *)
Definition column_joins (column : Column) : Eff World (list string) :=
  map_eff (λ '(index, key), join_of_link (call_chain column) index key)
          (enumerate 0 (call_chain column)).

Definition readable_columns_of (i : Selectable) : list Selectable :=
  match i with
  | SelReadable _ cols => SelColumn <$> cols
  | _ => []
  end.

Definition _get_joins (columns : list Selectable) : Eff World (list string) :=
  let columns := (columns ++ concat (readable_columns_of <$> columns))%list in
  let* joins :=
    map_eff (λ column, match column with
                       | SelColumn c => column_joins c
                       | _ => ret []
                       end) columns in
  ret (fromkeys (concat joins)).

Definition _check_valid_call_chain (keys : list Selectable) : Result bool :=
  rbind (map_result
           (λ column, match column with
                      | SelColumn c =>
                          if bool_decide (call_chain c ≠ [])
                             && bool_decide (10 < length (call_chain c))%nat
                          then inl CallChainError
                          else inr tt
                      | _ => inr tt
                      end) keys)
        (λ _, inr true).

(** ** External collaborators

    Everything [select.py] calls but does not define: column rendering, the
    clause renderings, the executor, the JSON codec, [make_nested] and the
    constructors of [value_type]. *)
Class Collaborators := {
  Column_get_select_string : EngineType → Column → string;
  Column_get_full_name : Column → string;      (* _meta.get_full_name(with_alias=False) *)
  Readable_get_select_string : EngineType → string → list Column → string;
  M2MSelect_get_select_string : EngineType → M2MSelect → string;
  QueryString_str : QueryString → string;      (* QueryString.__str__() *)
  Distinct_querystring : Distinct → QueryString;
  Limit_querystring : Limit → QueryString;
  Offset_querystring : Offset → QueryString;
  (* engine.run_querystring: the rows of a built query *)
  run_querystring : QueryString → Result (list Row);
  (* the rows of the auxiliary query on the secondary table: the requested
     columns and the primary key as "mapping_key", where the primary key
     is in row_ids *)
  select_secondary_rows : M2MSelect → list Atom → Result (list Row);
  make_nested : Row → Row;
  load_json : Value → Result Value;
  dump_json : Value → string;
  call_value_type : PyType → Value → Result Value;  (* value_type(i) *)
}.

(** *** Delegate methods *)

(** Modelled from the spec: [WhereDelegate.get_where_columns] is not in
    [select.py]; it returns the WHERE-clause columns. *)
Definition get_where_columns (self : Select) : list Selectable :=
  match _where self with
  | Some w => SelColumn <$> where_columns w
  | None => []
  end.

(** Modelled from the spec: [OrderByDelegate.get_order_by_columns] is not in
    [select.py]; it returns the ORDER BY columns. *)
Definition get_order_by_columns (self : Select) : list Selectable :=
  SelColumn <$> concat (item_columns <$> order_by_items (_order_by self)).

Definition is_secret (i : Selectable) : bool :=
  match i with SelColumn c => secret c | _ => false end.

(** Modelled from the spec: [ColumnsDelegate.remove_secret_columns] is not in
    [select.py]; it drops the secret columns from the selection. *)
Definition remove_secret_columns (cols : list Selectable) : list Selectable :=
  filter (λ i, is_secret i = false) cols.

(** Modelled from the spec: [Distinct.validate_on] is not in [select.py];
    the DISTINCT ON columns must be a prefix of the ORDER BY columns. *)
Definition validate_on (on : list Column) (order_by : OrderBy) : Result unit :=
  if bool_decide (on `prefix_of` concat (item_columns <$> order_by_items order_by))
  then inr tt
  else inl (ValueError "The `DISTINCT ON` columns must match the leftmost `ORDER BY` columns.").

(** Modelled from the spec: [CallbackDelegate.invoke] is not in [select.py];
    the success callbacks transform the result one after the other. *)
Definition invoke (self : Select) (results : Value) : Value :=
  foldl (λ r callback, callback r) results (callbacks self).

Section Query.
Context `{Collaborators}.

(** *** [get_select_string] of each selectable *)

Definition Count_get_select_string (engine : EngineType) (self : Count) : string :=
  let expression :=
    if truthy_seq (count_distinct self)
    then
      let names := Column_get_full_name <$> default [] (count_distinct self) in
      let column_names :=
        if decide (engine = sqlite)
        then String.concat " || " names
        else String.concat ", " names in
      "DISTINCT (" +:+ column_names +:+ ")"
    else
      match count_column self with
      | Some c => Column_get_full_name c
      | None => "*"
      end in
  "COUNT(" +:+ expression +:+ ") AS " +:+ dquote +:+ count_alias self +:+ dquote.

Definition aggregate_string (function : string) (column : Column) (alias : string)
    : string :=
  function +:+ "(" +:+ Column_get_full_name column +:+ ") AS "
  +:+ dquote +:+ alias +:+ dquote.

Definition get_select_string (engine : EngineType) (c : Selectable) : string :=
  match c with
  | SelColumn c => Column_get_select_string engine c
  | SelReadable template cols => Readable_get_select_string engine template cols
  | SelM2M m => M2MSelect_get_select_string engine m
  | SelRaw q => QueryString_str q
  | SelAvg a => aggregate_string "AVG" (avg_column a) (avg_alias a)
  | SelCount c => Count_get_select_string engine c
  | SelMax m => aggregate_string "MAX" (max_column m) (max_alias m)
  | SelMin m => aggregate_string "MIN" (min_column m) (min_alias m)
  | SelSum s => aggregate_string "SUM" (sum_column s) (sum_alias s)
  end.

(** ** Query assembly *)

(** [query += "{}"; args.append(a)] *)
Definition add_arg (a : QueryString) (qa : string * list QueryString)
    : string * list QueryString :=
  (qa.1 +:+ "{}", (qa.2 ++ [a])%list).

Definition add_text (text : string) (qa : string * list QueryString)
    : string * list QueryString :=
  (qa.1 +:+ text, qa.2).

Definition add_optional {A} (o : option A) (text : string) (render : A → QueryString)
    (qa : string * list QueryString) : string * list QueryString :=
  match o with
  | Some x => (qa.1 +:+ text, (qa.2 ++ [render x])%list)
  | None => qa
  end.

(** The first part of [default_querystrings]: the call-chain check and the
    three join derivations, merged. *)
Definition combined_joins : Eff World (list string) :=
  let* w := get in
  let self := query w in
  run* lift (_check_valid_call_chain (selected_columns self)) in
  let* select_joins := _get_joins (selected_columns self) in
  let* where_joins := _get_joins (get_where_columns self) in
  let* order_by_joins := _get_joins (get_order_by_columns self) in
  ret (fromkeys (select_joins ++ where_joins ++ order_by_joins)%list).

(** The second part: an empty selection becomes the table's columns, and
    the secret columns go when [exclude_secrets] is set. *)
Definition expand_selection (self : Select) : Select :=
  let self :=
    if decide (length (selected_columns self) = 0)%nat
    then set_selected_columns (SelColumn <$> columns (table self)) self
    else self in
  if exclude_secrets self
  then set_selected_columns (remove_secret_columns (selected_columns self)) self
  else self.

(** The third part: the template and its arguments. *)
Definition assemble (self : Select) (joins : list string) : Result (list QueryString) :=
  let engine_type := engine_type (table self) in
  let select_strings := get_select_string engine_type <$> selected_columns self in
  let columns_str := String.concat ", " select_strings in
  let distinct := _distinct self in
  rbind (if truthy_seq (distinct_on distinct)
         then validate_on (default [] (distinct_on distinct)) (_order_by self)
         else inr tt) (λ _,
  let qa := add_arg (Distinct_querystring distinct) ("SELECT", []) in
  let qa := add_text (" " +:+ columns_str +:+ " FROM "
                      +:+ formatted_tablename (table self)) qa in
  let qa := foldl (λ qa join, add_text (" " +:+ join) qa) qa joins in
  let qa := add_optional (_as_of self) "{}" as_of_querystring qa in
  let qa := add_optional (_where self) " WHERE {}" where_querystring qa in
  let qa := add_optional (_group_by self) "{}" group_by_querystring qa in
  let qa := if bool_decide (order_by_items (_order_by self) ≠ [])
            then add_arg (order_by_querystring (_order_by self)) qa
            else qa in
  if bool_decide (engine_type = sqlite)
     && bool_decide (is_Some (_offset self))
     && negb (bool_decide (is_Some (_limit self)))
  then inl (ValueError
              "A limit clause must be provided when doing an offset with SQLite.")
  else
    let qa := add_optional (_limit self) "{}" Limit_querystring qa in
    let qa := add_optional (_offset self) "{}" Offset_querystring qa in
    inr [QS qa.1 qa.2]).

(** [Select.default_querystrings] *)
Definition default_querystrings : Eff World (list QueryString) :=
  let* joins := combined_joins in
  run* modify (λ w, set_query (expand_selection (query w)) w) in
  let* w := get in
  lift (assemble (query w) joins).

(** ** Response shaping *)

(** [row[k]] *)
Definition subscript (row : Row) (k : string) : Result Value :=
  match dict_get k row with
  | Some v => inr v
  | None => inl (KeyError k)
  end.

(** The items a [for] loop or [itertools.chain] draws from a value. *)
Definition iter_value (v : Value) : Result (list Value) :=
  match v with
  | VList l => inr l
  | VDict d => inr ((λ k, VStr k) <$> dict_keys d)
  | VAtom (AStr s) => inr ((λ c, VStr (String c EmptyString)) <$> String.list_ascii_of_string s)
  | VAtom _ => inl (TypeError "object is not iterable")
  end.

(** A [set] member or [dict] key must be hashable. *)
Definition as_key (v : Value) : Result Atom :=
  match v with
  | VAtom a => inr a
  | _ => inl (TypeError "unhashable type")
  end.

Definition truthy (v : Value) : bool :=
  match v with
  | VAtom ANone => false
  | VAtom (AInt z) => bool_decide (z ≠ 0%Z)
  | VAtom (AStr s) => bool_decide (s ≠ "")
  | VAtom (ADatetime _ _) => true
  | VList l => bool_decide (l ≠ [])
  | VDict d => bool_decide (d ≠ [])
  end.

(** [row[m2m_name]] as the list of identifiers it holds. *)
Definition row_identifiers (m2m_name : string) (row : Row) : Result (list Value) :=
  rbind (subscript row m2m_name) iter_value.

(** [{row["mapping_key"]: value(row) for row in extra_rows}] *)
Definition mapping_step (value : Row → Result Value)
    (acc : Result (gmap Atom Value)) (row : Row) : Result (gmap Atom Value) :=
  rbind acc (λ m,
  rbind (subscript row "mapping_key") (λ k,
  rbind (value row) (λ v,
  rbind (as_key k) (λ k, inr (<[k := v]> m))))).

Definition mapping_of (value : Row → Result Value) (extra_rows : list Row)
    : Result (gmap Atom Value) :=
  foldl (mapping_step value) (inr ∅) extra_rows.

(** [extra_rows_map.get(i)] *)
Definition map_get (extra_rows_map : gmap Atom Value) (i : Value) : Result Value :=
  rbind (as_key i) (λ k, inr (default VNone (extra_rows_map !! k))).

(** The executor makes one [dict] for each result row, so the rows are
    values here and the loop that rewrites them returns the new list.
    [row_ids] is a [set] turned into a list: its order is not specified. *)
Definition _splice_m2m_rows (response : list Row) (m2m_name : string)
    (m2m_select : M2MSelect) (as_list : bool) : Result (list Row) :=
  rbind (map_result (row_identifiers m2m_name) response) (λ ids,
  rbind (map_result as_key (concat ids)) (λ keys,
  let row_ids := elements (list_to_set keys : gset Atom) in
  rbind (if bool_decide (row_ids ≠ [])
         then select_secondary_rows m2m_select row_ids
         else inr []) (λ extra_rows,
  rbind (if as_list
         then
           match m2m_columns m2m_select with
           | c :: _ => mapping_of (λ row, subscript row (column_name c)) extra_rows
           | [] => inl IndexError
           end
         else
           mapping_of (λ row, inr (VDict (filter (λ kv, kv.1 ≠ "mapping_key") row)))
                      extra_rows) (λ extra_rows_map,
  map_result (λ row,
                rbind (row_identifiers m2m_name row) (λ ids,
                rbind (map_result (map_get extra_rows_map) ids) (λ values,
                inr (dict_set m2m_name (VList values) row))))
             response)))).

(** [for row in response: row[name] = f(row[name])], all rows or an
    exception. *)
Definition update_rows (name : string) (f : Value → Result Value) (response : list Row)
    : Result (list Row) :=
  map_result (λ row, rbind (subscript row name) (λ data,
                     rbind (f data) (λ v, inr (dict_set name v row)))) response.

(** The SQLite type conversion with its [try ... except ValueError]: the
    rows converted before the failing one stay converted, the warning is
    only printed. *)
Fixpoint convert_rows (name : string) (value_type : PyType) (response : list Row)
    : Result (list Row) :=
  match response with
  | [] => inr []
  | row :: rest =>
      match rbind (subscript row name) (λ data,
            if truthy data
            then rbind (iter_value data) (λ items,
                 rbind (map_result (call_value_type value_type) items) (λ l,
                 inr (dict_set name (VList l) row)))
            else inr (dict_set name (VList []) row))
      with
      | inl (ValueError _) => inr (row :: rest)
      | inl e => inl e
      | inr row' => rbind (convert_rows name value_type rest) (λ rest', inr (row' :: rest'))
      end
  end.

Definition is_json_column (c : Column) : bool :=
  bool_decide (column_kind c ∈ [JSON; JSONB]).

(** One round of [for m2m_select in m2m_selects]. *)
Definition handle_m2m_select (self : Select) (response : list Row) (m2m_select : M2MSelect)
    : Result (list Row) :=
  let name := m2m_name m2m_select in
  let secondary_table_pk := primary_key (m2m_secondary_table m2m_select) in
  match engine_type (table self) with
  | sqlite =>
      rbind (if m2m_as_list m2m_select && m2m_serialisation_safe m2m_select
             then match m2m_columns m2m_select with
                  | c :: _ => inr (value_type c)
                  | [] => inl IndexError
                  end
             else inr (value_type secondary_table_pk)) (λ value_type,
      rbind (convert_rows name value_type response) (λ response,
      if m2m_as_list m2m_select
      then
        if m2m_serialisation_safe m2m_select
        then inr response
        else _splice_m2m_rows response name m2m_select true
      else
        if bool_decide (length (m2m_columns m2m_select) = 1%nat)
           && m2m_serialisation_safe m2m_select
        then
          match m2m_columns m2m_select with
          | c :: _ =>
              update_rows name
                (λ data, rbind (iter_value data) (λ items,
                         inr (VList ((λ i, VDict [(column_name c, i)]) <$> items))))
                response
          | [] => inl IndexError
          end
        else _splice_m2m_rows response name m2m_select false))
  | postgres | cockroach =>
      if m2m_as_list m2m_select
      then
        match m2m_columns m2m_select with
        | c :: _ =>
            if is_json_column c && m2m_load_json m2m_select
            then update_rows name
                   (λ data, rbind (iter_value data) (λ items,
                            rbind (map_result load_json items) (λ l, inr (VList l))))
                   response
            else inr response
        | [] => inl IndexError
        end
      else if m2m_serialisation_safe m2m_select
      then update_rows name
             (λ data, if truthy data then load_json data else inr (VList []))
             response
      else _splice_m2m_rows response name m2m_select false
  end.

Definition m2m_selects (self : Select) : list M2MSelect :=
  omap (λ i, match i with SelM2M m => Some m | _ => None end) (selected_columns self).

(** A naive datetime under the column's alias gets the column's zone. *)
Definition attach_timezone (alias tz : string) (row : Row) : Row :=
  match dict_get alias row with
  | Some (VAtom (ADatetime t None)) =>
      dict_set alias (VAtom (ADatetime t (Some tz))) row
  | _ => row
  end.

Definition timestamptz_columns (self : Select) : list (string * string) :=
  let selected_columns :=
    if bool_decide (selected_columns self ≠ [])
    then selected_columns self
    else SelColumn <$> columns (table self) in
  omap (λ i, match i with
             | SelColumn c =>
                 match column_kind c with
                 | Timestamptz tz => Some (column_alias c, tz)
                 | _ => None
                 end
             | _ => None
             end) selected_columns.

Definition normalise_timestamps (self : Select) (response : list Row) : list Row :=
  foldl (λ response '(alias, tz),
           if decide (tz = "UTC") then response
           else attach_timezone alias tz <$> response)
        response (timestamptz_columns self).

Definition was_select_star (self : Select) : bool :=
  bool_decide (length (selected_columns self) = 0%nat).

Definition response_handler (self : Select) (response : list Row) : Result (list Row) :=
  rbind (foldl (λ acc m2m_select,
                  rbind acc (λ response, handle_m2m_select self response m2m_select))
               (inr response) (m2m_selects self)) (λ response,
  let response := normalise_timestamps self response in
  if nested (_output self) && negb (was_select_star self)
  then inr (make_nested <$> response)
  else inr response).

(** ** Running a query *)

(** Modelled from the spec: [Query.run] of the base class is not in
    [select.py]; the assembler produces the query string, the executor
    runs it, and the raw rows flow into the response shaper. *)
Definition Query_run : Eff World (list Row) :=
  let* querystrings := default_querystrings in
  match querystrings with
  | querystring :: _ =>
      let* results := lift (run_querystring querystring) in
      let* w := get in
      lift (response_handler (query w) results)
  | [] => ret []
  end.

Definition rows_value (rows : list Row) : Value := VList (VDict <$> rows).

Definition Select_run (use_callbacks : bool) : Eff World Value :=
  let* results := Query_run in
  let* w := get in
  if use_callbacks
  then ret (invoke (query w) (rows_value results))
  else ret (rows_value results).

(** ** Result views *)

(** [Select.first]: [self.limit_delegate.limit(1)], then the [First] proxy. *)
Definition first : Eff World unit :=
  modify (λ w, set_query (limit 1 (query w)) w).

Definition First_run : Eff World Value :=
  let* rows := Select_run false in
  let* results :=
    if truthy rows
    then match rows with
         | VList (row :: _) => ret row
         | _ => raise (TypeError "rows is not a list")
         end
    else ret VNone in
  let* w := get in
  ret (invoke (query w) results).

(** [j.values()] *)
Definition values_of (j : Value) : Result (list Value) :=
  match j with
  | VDict d => inr (dict_values d)
  | _ => inl (AttributeError "values")
  end.

(** [len(j.keys())] *)
Definition count_keys (j : Value) : Result nat :=
  match j with
  | VDict d => inr (length (dict_keys d))
  | _ => inl (AttributeError "keys")
  end.

(** The body of [SelectList.run] between the query and the callbacks. *)
Definition flatten_rows (rows : list Value) : Result (list Value) :=
  match rows with
  | [] => inr []
  | row0 :: _ =>
      rbind (count_keys row0) (λ n,
      if bool_decide (n ≠ 1%nat)
      then inl (ValueError "Each row returned more than one value")
      else rbind (map_result values_of rows) (λ vs, inr (concat vs)))
  end.

Definition SelectList_run : Eff World Value :=
  let* rows := Select_run false in
  let* response :=
    match rows with
    | VList rows => lift (flatten_rows rows)
    | _ => raise (TypeError "rows is not a list")
    end in
  let* w := get in
  ret (invoke (query w) (VList response)).

Definition SelectJSON_run : Eff World string :=
  let* rows := Select_run true in
  ret (dump_json rows).
End Query.

(** ** Notions used to state the properties *)

(** What is expected as the left-hand table of step [index]: the alias of
    the prefix before it, or the formatted name of the table the chain
    starts from. *)
Definition prefix_left_tablename (chain : list ForeignKey) (index : nat)
    (key : ForeignKey) : string :=
  match index with
  | 0 => key_formatted_tablename key
  | S _ => chain_alias (take index chain)
  end.

(** What the loop reads back: the previous link's [table_alias], which the
    write of this step has already replaced when both links are one
    object. *)
Definition observed_left_tablename (chain : list ForeignKey) (index : nat)
    (key : ForeignKey) : string :=
  match index with
  | 0 => key_formatted_tablename key
  | S j =>
      match chain !! j with
      | Some previous =>
          if decide (key_object previous = key_object key)
          then chain_alias (take (S index) chain)
          else chain_alias (take index chain)
      | None => "None"
      end
  end.

Definition join_with (left : list ForeignKey → nat → ForeignKey → string)
    (chain : list ForeignKey) (index : nat) (key : ForeignKey) : string :=
  left_join (key_right_tablename key) (chain_alias (take (S index) chain))
            (left chain index key) (key_name key) (key_pk_name key).

Definition aliased (w : World) (key : ForeignKey) (alias : string) : World :=
  {| query := query w;
     table_alias := <[key_object key := alias]> (table_alias w) |}.

(** The previous link carries the alias of the prefix that ends in it. *)
Definition previous_alias_stored (chain : list ForeignKey) (index : nat) (w : World)
    : Prop :=
  ∀ j previous, index = S j → chain !! j = Some previous →
    table_alias w !! key_object previous = Some (chain_alias (take index chain)).

(** Consecutive links of the chain are different objects, as the links made
    by attribute traversal are. *)
Definition distinct_neighbours (chain : list ForeignKey) : Prop :=
  ∀ j a b, chain !! j = Some a → chain !! S j = Some b →
    key_object a ≠ key_object b.

(** The text by which the loop over [joins] extends the template. *)
Definition joins_text (joins : list string) : string :=
  String.concat "" ((λ join, " " +:+ join) <$> joins).

(** The DISTINCT ON columns, if any, pass [validate_on]. *)
Definition distinct_on_accepted (q : Select) : Prop :=
  (if truthy_seq (distinct_on (_distinct q))
   then validate_on (default [] (distinct_on (_distinct q))) (_order_by q)
   else inr tt) = inr tt.

(** ** A JSON codec and collaborators to run the model on examples

    Modelled from the spec: the JSON codec ([dump_json], [load_json]) is
    not in [select.py]; it encodes a result structure as JSON text and
    decodes JSON text to native structures. JSON has no [datetime]: the
    encoder writes one as a string. *)

Definition is_char (n : nat) (c : Ascii.ascii) : bool :=
  bool_decide (c = Ascii.ascii_of_nat n).

(** A backslash goes before each quote and each backslash of a string. *)
Fixpoint json_escape (s : string) : string :=
  match s with
  | EmptyString => EmptyString
  | String c s' =>
      if is_char 34 c || is_char 92 c
      then String (Ascii.ascii_of_nat 92) (String c (json_escape s'))
      else String c (json_escape s')
  end.

Definition json_string (s : string) : string := dquote +:+ json_escape s +:+ dquote.

Fixpoint json_dumps (v : Value) : string :=
  match v with
  | VAtom ANone => "null"
  | VAtom (AInt z) => pretty z
  | VAtom (AStr s) => json_string s
  | VAtom (ADatetime t _) => json_string (pretty t)
  | VList l => "[" +:+ String.concat ", " (map json_dumps l) +:+ "]"
  | VDict d =>
      "{" +:+ String.concat ", "
                (map (λ kv, let '(k, x) := kv in json_string k +:+ ": " +:+ json_dumps x) d)
      +:+ "}"
  end.

Definition digit_value (c : Ascii.ascii) : option Z :=
  let n := Ascii.nat_of_ascii c in
  if bool_decide (48 ≤ n ≤ 57)%nat then Some (Z.of_nat (n - 48)) else None.

Fixpoint skip_spaces (s : list Ascii.ascii) : list Ascii.ascii :=
  match s with
  | c :: s' => if is_char 32 c then skip_spaces s' else s
  | [] => []
  end.

Fixpoint read_digits (acc : Z) (s : list Ascii.ascii) : Z * list Ascii.ascii :=
  match s with
  | c :: s' =>
      match digit_value c with
      | Some d => read_digits (10 * acc + d)%Z s'
      | None => (acc, s)
      end
  | [] => (acc, [])
  end.

Fixpoint read_string (s : list Ascii.ascii) : option (string * list Ascii.ascii) :=
  match s with
  | c :: s' =>
      if is_char 34 c then Some ("", s')
      else if is_char 92 c then          (* a backslash: the next character as it is *)
        match s' with
        | c' :: s'' => '(str, rest) ← read_string s''; Some (String c' str, rest)
        | [] => None
        end
      else '(str, rest) ← read_string s'; Some (String c str, rest)
  | [] => None
  end.

Fixpoint parse_value (fuel : nat) (s : list Ascii.ascii) : option (Value * list Ascii.ascii) :=
  match fuel with
  | 0 => None
  | S fuel =>
      match skip_spaces s with
      | c :: rest =>
          if is_char 34 c then
            '(str, rest) ← read_string rest; Some (VStr str, rest)
          else if is_char 110 c then          (* null *)
            match rest with
            | _ :: _ :: _ :: rest => Some (VNone, rest)
            | _ => None
            end
          else if is_char 45 c then           (* a minus sign *)
            let '(n, rest) := read_digits 0 rest in Some (VInt (- n), rest)
          else if is_char 91 c then           (* [ *)
            match skip_spaces rest with
            | c' :: rest' =>
                if is_char 93 c' then Some (VList [], rest')
                else '(l, rest) ← parse_items fuel rest; Some (VList l, rest)
            | [] => None
            end
          else if is_char 123 c then          (* { *)
            match skip_spaces rest with
            | c' :: rest' =>
                if is_char 125 c' then Some (VDict [], rest')
                else '(d, rest) ← parse_members fuel rest; Some (VDict d, rest)
            | [] => None
            end
          else
            match digit_value c with
            | Some _ => let '(n, rest) := read_digits 0 (c :: rest) in Some (VInt n, rest)
            | None => None
            end
      | [] => None
      end
  end
with parse_items (fuel : nat) (s : list Ascii.ascii) : option (list Value * list Ascii.ascii) :=
  match fuel with
  | 0 => None
  | S fuel =>
      '(v, rest) ← parse_value fuel s;
      match skip_spaces rest with
      | c :: rest =>
          if is_char 44 c then '(l, rest) ← parse_items fuel rest; Some (v :: l, rest)
          else if is_char 93 c then Some ([v], rest)
          else None
      | [] => None
      end
  end
with parse_members (fuel : nat) (s : list Ascii.ascii) : option (Row * list Ascii.ascii) :=
  match fuel with
  | 0 => None
  | S fuel =>
      match skip_spaces s with
      | q :: rest =>
          if is_char 34 q then
            '(k, rest) ← read_string rest;
            match skip_spaces rest with
            | colon :: rest =>
                if is_char 58 colon then
                  '(v, rest) ← parse_value fuel rest;
                  match skip_spaces rest with
                  | c :: rest =>
                      if is_char 44 c
                      then '(d, rest) ← parse_members fuel rest; Some ((k, v) :: d, rest)
                      else if is_char 125 c then Some ([(k, v)], rest)
                      else None
                  | [] => None
                  end
                else None
            | [] => None
            end
          else None
      | [] => None
      end
  end.

Definition json_loads (s : string) : Result Value :=
  let text := String.list_ascii_of_string s in
  match parse_value (S (length text)) text with
  | Some (v, rest) =>
      match skip_spaces rest with
      | [] => inr v
      | _ => inl (ValueError "Extra data")
      end
  | None => inl (ValueError "Expecting value")
  end.

(** [int(i)]; the other constructors take the value as it is. *)
Definition demo_call_value_type (t : PyType) (v : Value) : Result Value :=
  match t, v with
  | py_int, VAtom (AStr s) =>
      match String.list_ascii_of_string s with
      | [] => inl (ValueError "invalid literal for int()")
      | text =>
          match read_digits 0 text with
          | (n, []) => inr (VInt n)
          | _ => inl (ValueError "invalid literal for int()")
          end
      end
  | _, _ => inr v
  end.

Fixpoint split_at_dot (s : string) : option (string * string) :=
  match s with
  | EmptyString => None
  | String c s' =>
      if is_char 46 c then Some ("", s')
      else '(root, rest) ← split_at_dot s'; Some (String c root, rest)
  end.

(** Keys of the form [root.rest] move into a dictionary under [root]. *)
Definition demo_make_nested (row : Row) : Row :=
  foldl (λ output '(key, value),
           match split_at_dot key with
           | None => dict_set key value output
           | Some (root, rest) =>
               let inner := match dict_get root output with
                            | Some (VDict d) => d
                            | _ => []
                            end in
               dict_set root (VDict (dict_set rest value inner)) output
           end) [] row.

Definition has_mapping_key (ids : list Atom) (row : Row) : bool :=
  match dict_get "mapping_key" row with
  | Some (VAtom a) => bool_decide (a ∈ ids)
  | _ => false
  end.

Definition quoted (s : string) : string := dquote +:+ s +:+ dquote.

(** Collaborators whose executor answers every query with [rows] and whose
    secondary table holds [secondary]. *)
Definition demo (rows secondary : list Row) : Collaborators := {|
  Column_get_select_string := λ _ c, quoted (column_alias c);
  Column_get_full_name := λ c, quoted (column_name c);
  Readable_get_select_string := λ _ template _, template;
  M2MSelect_get_select_string := λ _ m, quoted (m2m_name m);
  QueryString_str := λ q, match q with QS template _ => template end;
  Distinct_querystring := λ d, QS (if distinct_enabled d then " DISTINCT" else "") [];
  Limit_querystring := λ l, QS (" LIMIT " +:+ pretty (limit_number l)) [];
  Offset_querystring := λ o, QS (" OFFSET " +:+ pretty (offset_number o)) [];
  run_querystring := λ _, inr rows;
  select_secondary_rows := λ _ ids, inr (filter (λ row, has_mapping_key ids row = true) secondary);
  make_nested := demo_make_nested;
  load_json := λ v, match v with
                    | VAtom (AStr s) => json_loads s
                    | _ => inl (TypeError "the JSON object must be str")
                    end;
  dump_json := json_dumps;
  call_value_type := demo_call_value_type;
|}.

(** *** A schema: bands, their managers, and the managers' bosses *)

Definition plain_column (name : string) (type : PyType) : Column :=
  {| column_name := name; call_chain := []; value_type := type; secret := false;
     column_kind := PlainColumn; column_alias := name |}.

Definition band_manager : ForeignKey :=
  {| key_object := 1; key_tablename := "band";
     key_formatted_tablename := quoted "band"; key_name := "manager";
     key_right_tablename := quoted "manager"; key_pk_name := "id" |}.

(** [Manager.boss], a foreign key of [manager] to itself, as the object
    [object]. *)
Definition manager_boss (object : positive) : ForeignKey :=
  {| key_object := object; key_tablename := "manager";
     key_formatted_tablename := quoted "manager"; key_name := "boss";
     key_right_tablename := quoted "manager"; key_pk_name := "id" |}.

Definition column_through (chain : list ForeignKey) (name alias : string) : Column :=
  {| column_name := name; call_chain := chain; value_type := py_str;
     secret := false; column_kind := PlainColumn; column_alias := alias |}.

(** [Band.manager.name] and [Band.manager.boss.name] *)
Definition band_manager_name : Column :=
  column_through [band_manager] "name" "manager.name".
Definition band_manager_boss_name : Column :=
  column_through [band_manager; manager_boss 2] "name" "manager.boss.name".

(** A column eleven links away. *)
Definition eleven_links : Column :=
  column_through (band_manager :: (manager_boss <$> [2; 3; 4; 5; 6; 7; 8; 9; 10; 11]%positive))
                 "name" "far.name".

Definition band (engine : EngineType) : Table :=
  {| tablename := "band"; formatted_tablename := quoted "band";
     columns := [plain_column "id" py_int; plain_column "name" py_str];
     primary_key := plain_column "id" py_int; engine_type := engine |}.

Definition genre : Table :=
  {| tablename := "genre"; formatted_tablename := quoted "genre";
     columns := [plain_column "id" py_int; plain_column "name" py_str];
     primary_key := plain_column "id" py_int; engine_type := postgres |}.

(** [Band.select()] on [engine]: nothing selected, no clause set. *)
Definition select_from_band (engine : EngineType) : Select :=
  {| table := band engine; exclude_secrets := false; selected_columns := [];
     _where := None;
     _order_by := {| order_by_items := []; order_by_querystring := QS "" [] |};
     _group_by := None;
     _distinct := {| distinct_enabled := false; distinct_on := None |};
     _limit := None; _offset := None; _as_of := None;
     _output := {| as_list := false; as_json := false; load_json_output := false;
                   nested := false |};
     callbacks := [] |}.

Definition with_where (column : Column) (q : Select) : Select :=
  {| table := table q; exclude_secrets := exclude_secrets q;
     selected_columns := selected_columns q;
     _where := Some {| where_querystring := QS "{} = {}" []; where_columns := [column] |};
     _order_by := _order_by q; _group_by := _group_by q; _distinct := _distinct q;
     _limit := _limit q; _offset := _offset q; _as_of := _as_of q;
     _output := _output q; callbacks := callbacks q |}.

Definition with_order_by (column : Column) (q : Select) : Select :=
  {| table := table q; exclude_secrets := exclude_secrets q;
     selected_columns := selected_columns q; _where := _where q;
     _order_by := {| order_by_items := [{| item_columns := [column]; item_ascending := true |}];
                     order_by_querystring := QS " ORDER BY {}" [] |};
     _group_by := _group_by q; _distinct := _distinct q;
     _limit := _limit q; _offset := _offset q; _as_of := _as_of q;
     _output := _output q; callbacks := callbacks q |}.

Definition with_offset (number : Z) (q : Select) : Select :=
  {| table := table q; exclude_secrets := exclude_secrets q;
     selected_columns := selected_columns q; _where := _where q;
     _order_by := _order_by q; _group_by := _group_by q; _distinct := _distinct q;
     _limit := _limit q; _offset := Some {| offset_number := number |};
     _as_of := _as_of q; _output := _output q; callbacks := callbacks q |}.


Definition with_callback (callback : Value → Value) (q : Select) : Select :=
  {| table := table q; exclude_secrets := exclude_secrets q;
     selected_columns := selected_columns q; _where := _where q;
     _order_by := _order_by q; _group_by := _group_by q; _distinct := _distinct q;
     _limit := _limit q; _offset := _offset q; _as_of := _as_of q;
     _output := _output q; callbacks := (callbacks q ++ [callback])%list |}.

(** The interpreter before the query is built: no key has an alias yet. *)
Definition fresh (q : Select) : World := {| query := q; table_alias := ∅ |}.

Definition joined_query : Select :=
  with_order_by band_manager_boss_name
    (with_where band_manager_name
       (set_selected_columns [SelColumn band_manager_name] (select_from_band postgres))).

(** *** Queries and rows of the examples *)

(** [Band.select().where(...)] with a WHERE column eleven links away. *)
Definition far_where_query : Select :=
  with_where eleven_links (select_from_band postgres).

(** [Band.select(Band.name)] *)
Definition select_name (engine : EngineType) : Select :=
  set_selected_columns [SelColumn (plain_column "name" py_str)] (select_from_band engine).

Definition band_rows : list Row :=
  [[("name", VStr "Pythonistas")]; [("name", VStr "Rustaceans")]].

(** A success callback that wraps the result, as for an API response. *)
Definition envelope (results : Value) : Value := VDict [("data", results)].

(** [Band.genres(Genre.name)], a many-to-many selection that is not safe to
    serialise, with the rows it is spliced into and the rows of [genre]. *)
Definition band_genres : M2MSelect :=
  {| m2m_name := "genres"; m2m_secondary_table := genre;
     m2m_columns := [plain_column "name" py_str]; m2m_as_list := false;
     m2m_load_json := false; m2m_serialisation_safe := false |}.

Definition rows_with_genre_ids : list Row :=
  [[("name", VStr "Pythonistas"); ("genres", VList [VInt 1; VInt 2; VInt 7])];
   [("name", VStr "Rustaceans"); ("genres", VList [])]].

Definition genre_rows : list Row :=
  [[("name", VStr "Rock"); ("mapping_key", VInt 1)];
   [("name", VStr "Folk"); ("mapping_key", VInt 2)]].

(** [Manager.select(exclude_secrets=True)] on a table with a secret column. *)
Definition manager_table : Table :=
  {| tablename := "manager"; formatted_tablename := quoted "manager";
     columns := [plain_column "id" py_int; plain_column "name" py_str;
                 {| column_name := "password"; call_chain := []; value_type := py_str;
                    secret := true; column_kind := PlainColumn;
                    column_alias := "password" |}];
     primary_key := plain_column "id" py_int; engine_type := postgres |}.

Definition select_from_manager_without_secrets : Select :=
  {| table := manager_table; exclude_secrets := true; selected_columns := [];
     _where := None;
     _order_by := {| order_by_items := []; order_by_querystring := QS "" [] |};
     _group_by := None;
     _distinct := {| distinct_enabled := false; distinct_on := None |};
     _limit := None; _offset := None; _as_of := None;
     _output := {| as_list := false; as_json := false; load_json_output := false;
                   nested := false |};
     callbacks := [] |}.

(** ** Further notions: the joins in closed form *)

(** The fragments of one column, one for each link of its chain. *)
Definition link_joins (column : Column) : list string :=
  (λ '(index, key), join_with observed_left_tablename (call_chain column) index key)
    <$> enumerate 0 (call_chain column).

Definition selectable_joins (i : Selectable) : list string :=
  match i with
  | SelColumn c => link_joins c
  | _ => []
  end.

(** All fragments of a list of selectables, the columns of its readables
    after it, before duplicates are removed. *)
Definition raw_joins (columns : list Selectable) : list string :=
  concat (selectable_joins
            <$> (columns ++ concat (readable_columns_of <$> columns))%list).

(** No column of the list, nor of a readable in it, has a call chain. *)
Definition without_call_chains (columns : list Selectable) : Prop :=
  Forall (λ i, match i with
               | SelColumn c => call_chain c = []
               | SelReadable _ cols => Forall (λ c, call_chain c = []) cols
               | _ => True
               end) columns.

(** ** Further notions: the parts of a built query string *)

(** What an optional clause adds to the template and to the arguments. *)
Definition clause_text {A} (o : option A) (text : string) : string :=
  match o with Some _ => text | None => "" end.

Definition clause_arg {A} (o : option A) (render : A → QueryString) : list QueryString :=
  match o with Some x => [render x] | None => [] end.

(** The ORDER BY clause counts when it has items. *)
Definition order_by_clause (q : Select) : option OrderBy :=
  if bool_decide (order_by_items (_order_by q) ≠ []) then Some (_order_by q) else None.

(** ** Further notions: the response handler *)

Section HandlerNotions.
Context `{Collaborators}.

(** What the SQLite branch makes of one row:
    [[value_type(i) for i in row[m2m_name]] if data else []]. *)
Definition convert_row (name : string) (value_type : PyType) (row : Row) : Result Row :=
  rbind (subscript row name) (λ data,
  if truthy data
  then rbind (iter_value data) (λ items,
       rbind (map_result (call_value_type value_type) items) (λ l,
       inr (dict_set name (VList l) row)))
  else inr (dict_set name (VList []) row)).

(** The row has a timezone-naive datetime under [alias]. *)
Definition naive_at (alias : string) (row : Row) : Prop :=
  ∃ t, dict_get alias row = Some (VAtom (ADatetime t None)).
End HandlerNotions.

(** ** Further operations: a clause method with a dialect guard *)

Inductive ClauseError :=
| NotImplementedError (msg : string).

Definition set_distinct (d : Distinct) (q : Select) : Select :=
  {| table := table q; exclude_secrets := exclude_secrets q;
     selected_columns := selected_columns q; _where := _where q;
     _order_by := _order_by q; _group_by := _group_by q;
     _distinct := d; _limit := _limit q; _offset := _offset q;
     _as_of := _as_of q; _output := _output q; callbacks := callbacks q |}.

(** [Select.distinct]: [on] is [None] or a sequence of columns; the
    dialect is the one of the table's engine. *)
Definition distinct (on : option (list Column)) (self : Select) : ClauseError + Select :=
  if bool_decide (is_Some on) && bool_decide (engine_type (table self) = sqlite)
  then inl (NotImplementedError "SQLite doesn't support DISTINCT ON")
  else inr (set_distinct {| distinct_enabled := true; distinct_on := on |} self).

(** [Select.offset] *)
Definition offset (number : Z) (q : Select) : Select :=
  {| table := table q; exclude_secrets := exclude_secrets q;
     selected_columns := selected_columns q; _where := _where q;
     _order_by := _order_by q; _group_by := _group_by q;
     _distinct := _distinct q; _limit := _limit q;
     _offset := Some {| offset_number := number |};
     _as_of := _as_of q; _output := _output q; callbacks := callbacks q |}.

(** OFFSET without LIMIT on SQLite. *)
Definition sqlite_offset_without_limit (q : Select) : Prop :=
  engine_type (table q) = sqlite ∧ is_Some (_offset q) ∧ _limit q = None.

(** ** Further examples *)

(** [Band.select(Band.name, Count())], a selection without call chains. *)
Definition name_and_count : list Selectable :=
  [SelColumn (plain_column "name" py_str);
   SelCount {| count_column := None; count_distinct := None; count_alias := "count" |}].

(** A query with LIMIT and OFFSET over a join. *)
Definition paged_query : Select :=
  offset 20 (limit 10 joined_query).

(** [Manager.select(Manager.password, exclude_secrets=True)] *)
Definition secret_only_query : Select :=
  set_selected_columns
    [SelColumn {| column_name := "password"; call_chain := []; value_type := py_str;
                  secret := true; column_kind := PlainColumn;
                  column_alias := "password" |}]
    select_from_manager_without_secrets.

(** Identifier lists as SQLite returns them; the last row has one that is
    no number. *)
Definition rows_with_text_ids : list Row :=
  [[("name", VStr "Pythonistas"); ("genres", VList [VStr "1"; VStr "2"])];
   [("name", VStr "Rustaceans"); ("genres", VNone)];
   [("name", VStr "C-Sharps"); ("genres", VList [VStr "x"])];
   [("name", VStr "Gophers"); ("genres", VList [VStr "3"])]].

(** A concert table with a timestamptz column that is not in UTC. *)
Definition starts_column : Column :=
  {| column_name := "starts"; call_chain := []; value_type := py_datetime;
     secret := false; column_kind := Timestamptz "Europe/London";
     column_alias := "starts" |}.

Definition select_starts : Select :=
  set_selected_columns [SelColumn starts_column] (select_from_band postgres).

Definition concert_rows : list Row :=
  [[("starts", VAtom (ADatetime 1700000000 None))];
   [("starts", VAtom (ADatetime 1700003600 (Some "UTC")))];
   [("starts", VNone)]].

(** Rows whose relation entry is empty. *)
Definition rows_without_genres : list Row :=
  [[("name", VStr "Pythonistas"); ("genres", VList [])];
   [("name", VStr "Rustaceans"); ("genres", VList [])]].

(** Two rows of [genre] with the same mapping key. *)
Definition genre_rows_twice : list Row :=
  [[("name", VStr "Rock"); ("mapping_key", VInt 1)];
   [("name", VStr "Folk"); ("mapping_key", VInt 2)];
   [("name", VStr "Hard rock"); ("mapping_key", VInt 1)]].

(** ** Further notions: nested output *)




(** ** Further notions: values that JSON has *)

(** [None], integers, strings, and the lists and string-keyed objects made
    of them; a [datetime] is no JSON value, the encoder writes it as a
    string. *)
Fixpoint json_value (v : Value) : bool :=
  match v with
  | VAtom (ADatetime _ _) => false
  | VAtom _ => true
  | VList l => forallb json_value l
  | VDict d => forallb (λ '(_, x), json_value x) d
  end.

(** The depth to which [parse_value] recurses on the text of a value. *)
Fixpoint parse_depth (v : Value) : nat :=
  match v with
  | VAtom _ => 1
  | VList l => S (foldr (λ x n, S (parse_depth x `max` n)) 0%nat l)
  | VDict d => S (foldr (λ '(_, x) n, S (parse_depth x `max` n)) 0%nat d)
  end.

Abbreviation chars := String.list_ascii_of_string.

(** Where a number ends: at the end of the text or before a character that
    is no digit. *)
Definition ends_number (rest : list Ascii.ascii) : Prop :=
  match rest with
  | [] => True
  | c :: _ => digit_value c = None
  end.

Abbreviation quote_char := (Ascii.ascii_of_nat 34).

(** The depth of a list of items, and of the members of an object. *)
Definition items_depth (l : list Value) : nat :=
  foldr (λ x n, S (parse_depth x `max` n)) 0%nat l.

Definition members_depth (d : Row) : nat :=
  foldr (λ '(_, x) n, S (parse_depth x `max` n)) 0%nat d.

Definition member_text (kv : string * Value) : string :=
  let '(k, x) := kv in json_string k +:+ ": " +:+ json_dumps x.

(** What [parse_value] is to do for a value [v]. *)
Definition reads_back (v : Value) : Prop :=
  json_value v = true →
  ∀ fuel s rest,
    (parse_depth v ≤ fuel)%nat → ends_number rest →
    skip_spaces s = (chars (json_dumps v) ++ rest)%list →
    parse_value fuel s = Some (v, rest).



(** * Properties *)

(** ** Aggregates: which constructors check their operand *)

Lemma is_numeric_column_spec (column : Column) :
  is_numeric_column column = true ↔
  value_type column = py_int ∨ value_type column = py_Decimal
  ∨ value_type column = py_float.
Proof.
  unfold is_numeric_column. rewrite bool_decide_eq_true.
  rewrite !elem_of_cons, elem_of_nil. tauto.
Qed.

(** C8. [Sum] and [Avg] raise [ValueError] on construction exactly when the
    operand's value type is none of [int], [Decimal], [float], and otherwise
    store the operand; [Min], [Max] and [Count] accept every operand. *)
Theorem aggregates_check_numeric_operand (column : Column) (alias : string) :
  let numeric := value_type column = py_int ∨ value_type column = py_Decimal
                 ∨ value_type column = py_float in
  ((∃ msg, Sum_init column alias = inl (ValueError msg)) ↔ ¬ numeric)
  ∧ ((∃ msg, Avg_init column alias = inl (ValueError msg)) ↔ ¬ numeric)
  ∧ (numeric → Sum_init column alias = inr {| sum_column := column; sum_alias := alias |})
  ∧ (numeric → Avg_init column alias = inr {| avg_column := column; avg_alias := alias |})
  ∧ Min_init column alias = inr {| min_column := column; min_alias := alias |}
  ∧ Max_init column alias = inr {| max_column := column; max_alias := alias |}
  ∧ Count_init (Some column) None alias
    = inr {| count_column := Some column; count_distinct := None;
             count_alias := alias |}.
Proof.
  intros numeric. subst numeric.
  pose proof (is_numeric_column_spec column) as Hn.
  unfold Sum_init, Avg_init, Min_init, Max_init, Count_init.
  destruct (is_numeric_column column) eqn:E; simpl.
  - assert (Hnum : value_type column = py_int ∨ value_type column = py_Decimal
                   ∨ value_type column = py_float) by (by apply Hn).
    repeat split; try done.
    + by intros [? ?].
    + by intros [? ?].
  - assert (Hnot : ¬ (value_type column = py_int ∨ value_type column = py_Decimal
                      ∨ value_type column = py_float)).
    { intros Hc. apply Hn in Hc. discriminate. }
    repeat split; try done; eauto.
Qed.

(** ** [OrderedDict.fromkeys] keeps first occurrences *)

Section Fromkeys.
Implicit Types (l acc : list string) (x y : string).

Lemma fromkeys_snoc l x : fromkeys (l ++ [x]) = fromkeys_step (fromkeys l) x.
Proof. unfold fromkeys. by rewrite foldl_snoc. Qed.

Lemma fromkeys_elem_of l x : x ∈ fromkeys l ↔ x ∈ l.
Proof.
  revert x. induction l as [|y l IH] using rev_ind; intros x; [done|].
  rewrite fromkeys_snoc. unfold fromkeys_step.
  case_decide as Hy; rewrite ?elem_of_app, ?list_elem_of_singleton, IH; [|done].
  apply IH in Hy. split; [by left|by intros [?| ->]].
Qed.

Lemma fromkeys_NoDup l : NoDup (fromkeys l).
Proof.
  induction l as [|y l IH] using rev_ind; [constructor|].
  rewrite fromkeys_snoc. unfold fromkeys_step.
  case_decide as Hy; [done|].
  apply NoDup_app. split_and!; [done| |apply NoDup_singleton].
  intros z Hz ->%list_elem_of_singleton. done.
Qed.

(** Folding from any accumulator: what is new is appended in the order
    in which it is first met. *)
Lemma foldl_fromkeys_step acc l :
  foldl fromkeys_step acc l = (acc ++ filter (λ y, y ∉ acc) (fromkeys l))%list.
Proof.
  induction l as [|x l IH] using rev_ind.
  - simpl. by rewrite app_nil_r.
  - rewrite foldl_snoc, fromkeys_snoc, IH. unfold fromkeys_step.
    assert (Hmem : x ∈ (acc ++ filter (λ y, y ∉ acc) (fromkeys l))%list
                   ↔ x ∈ acc ∨ x ∈ fromkeys l).
    { rewrite elem_of_app, list_elem_of_filter.
      destruct (decide (x ∈ acc)); tauto. }
    destruct (decide (x ∈ fromkeys l)) as [Hin|Hin].
    + rewrite decide_True; [done|]. apply Hmem. by right.
    + rewrite filter_app.
      destruct (decide (x ∈ acc)) as [Hacc|Hacc].
      * rewrite decide_True by (apply Hmem; by left).
        rewrite filter_cons_False by (by intros ?). by rewrite filter_nil, app_nil_r.
      * rewrite decide_False by (rewrite Hmem; tauto).
        rewrite filter_cons_True by done. by rewrite filter_nil, app_assoc.
Qed.

(** The recursion that defines "first occurrence wins". *)
Lemma fromkeys_cons x l :
  fromkeys (x :: l) = x :: filter (λ y, y ≠ x) (fromkeys l).
Proof.
  change (fromkeys (x :: l)) with (foldl fromkeys_step (fromkeys_step [] x) l).
  rewrite foldl_fromkeys_step. unfold fromkeys_step.
  rewrite decide_False by apply not_elem_of_nil. simpl. f_equal.
  apply list_filter_iff. intros y. by rewrite list_elem_of_singleton.
Qed.

Lemma filter_split (P : string → Prop) `{∀ z, Decision (P z)} l j1 x j2 :
  filter P l = (j1 ++ x :: j2)%list →
  ∃ l1 l2, l = (l1 ++ x :: l2)%list ∧ filter P l1 = j1 ∧ filter P l2 = j2.
Proof.
  revert j1. induction l as [|a l IH]; intros j1 Heq.
  - by destruct j1.
  - destruct (decide (P a)) as [Ha|Ha].
    + rewrite filter_cons_True in Heq by done.
      destruct j1 as [|b j1]; simplify_eq/=.
      * exists [], l. by rewrite filter_nil.
      * destruct (IH _ H1) as (l1 & l2 & Hl & Hl1 & Hl2). subst.
        exists (b :: l1), l2. by rewrite filter_cons_True.
    + rewrite filter_cons_False in Heq by done.
      destruct (IH _ Heq) as (l1 & l2 & Hl & Hl1 & Hl2). subst.
      exists (a :: l1), l2. by rewrite filter_cons_False.
Qed.

(** First-seen order: when [x] stands before [y] in [fromkeys l], the
    first [x] of [l] comes before every [y] of [l]. *)
Lemma fromkeys_first_seen l x y j1 j2 :
  fromkeys l = (j1 ++ x :: j2)%list → y ∈ j2 →
  ∃ l1 l2, l = (l1 ++ x :: l2)%list ∧ (x ∉ l1) ∧ (y ∉ l1) ∧ y ∈ l2.
Proof.
  revert j1 j2. induction l as [|a l IH]; intros j1 j2 Heq Hy.
  - by destruct j1.
  - rewrite fromkeys_cons in Heq. destruct j1 as [|b j1]; simplify_eq/=.
    + exists [], l. split_and!; [done|apply not_elem_of_nil..|].
      apply list_elem_of_filter in Hy as [_ Hy]. by apply fromkeys_elem_of.
    + assert (Hx : x ∈ filter (λ z, z ≠ b) (fromkeys l)).
      { rewrite H0. apply elem_of_app. right. left. }
      assert (Hy' : y ∈ filter (λ z, z ≠ b) (fromkeys l)).
      { rewrite H0. apply elem_of_app. right. by right. }
      apply list_elem_of_filter in Hx as [Hxb _].
      apply list_elem_of_filter in Hy' as [Hyb _].
      apply filter_split in H0 as (k1 & k2 & Hk & Hk1 & Hk2). subst j1 j2.
      apply list_elem_of_filter in Hy as [_ Hy].
      destruct (IH _ _ Hk Hy) as (l1 & l2 & Hl & Hx1 & Hy1 & Hy2). subst l.
      exists (b :: l1), l2.
      split_and!; [done|by apply not_elem_of_cons..|done].
Qed.
End Fromkeys.

(** ** Join derivation *)

Section Joins.
Implicit Types (chain : list ForeignKey) (w : World).

Lemma join_of_link_run chain index key w :
  chain !! index = Some key →
  previous_alias_stored chain index w →
  join_of_link chain index key w
  = (inr (join_with observed_left_tablename chain index key),
     aliased w key (chain_alias (take (S index) chain))).
Proof.
  intros Hkey Hprev.
  unfold join_of_link, bind, write_table_alias, modify, left_tablename_at.
  destruct index as [|j]; simpl.
  - rewrite Hkey. done.
  - rewrite Nat.sub_0_r.
    destruct (chain !! j) as [previous|] eqn:Hj.
    2:{ apply lookup_ge_None in Hj. apply lookup_lt_Some in Hkey. lia. }
    unfold read_table_alias, bind, get, ret. simpl. rewrite Hkey.
    unfold join_with, observed_left_tablename, aliased. rewrite Hj.
    do 3 f_equal.
    destruct (decide (key_object previous = key_object key)) as [->|Hne].
    + by rewrite lookup_insert_eq.
    + rewrite lookup_insert_ne by done. by rewrite (Hprev j previous).
Qed.

Lemma links_run chain (pre rest : list ForeignKey) w :
  chain = (pre ++ rest)%list →
  previous_alias_stored chain (length pre) w →
  ∃ w',
    map_eff (λ '(index, key), join_of_link chain index key)
            (enumerate (length pre) rest) w
    = (inr ((λ '(index, key), join_with observed_left_tablename chain index key)
              <$> enumerate (length pre) rest), w')
    ∧ query w' = query w.
Proof.
  revert pre w. induction rest as [|key rest IH]; intros pre w Hchain Hprev.
  - by exists w.
  - assert (Hkey : chain !! length pre = Some key).
    { subst chain. by rewrite list_lookup_middle. }
    simpl. unfold bind at 1. rewrite (join_of_link_run _ _ _ _ Hkey Hprev).
    destruct (IH (pre ++ [key])%list
                (aliased w key (chain_alias (take (S (length pre)) chain))))
      as (w' & Hrun & Hq).
    { subst chain. by rewrite <- app_assoc. }
    { intros j previous Hj Hlook. rewrite length_app in Hj. simpl in Hj.
      assert (j = length pre) by lia. subst j.
      rewrite Hkey in Hlook. injection Hlook as <-.
      rewrite length_app. simpl. rewrite Nat.add_1_r. apply lookup_insert_eq. }
    rewrite length_app in Hrun. simpl in Hrun. rewrite Nat.add_1_r in Hrun.
    exists w'. unfold bind. rewrite Hrun. done.
Qed.

(** The joins of one column, for every call chain. *)
Lemma column_joins_run (column : Column) w :
  ∃ w',
    column_joins column w
    = (inr ((λ '(index, key),
               join_with observed_left_tablename (call_chain column) index key)
              <$> enumerate 0 (call_chain column)), w')
    ∧ query w' = query w.
Proof.
  unfold column_joins.
  apply (links_run (call_chain column) [] (call_chain column) w); [done|].
  intros j previous Hj. simpl in Hj. lia.
Qed.
End Joins.

Section JoinClaims.
Implicit Types (chain : list ForeignKey) (w : World).

Lemma enumerate_lookup {A} (l : list A) (start index : nat) (x : A) :
  l !! index = Some x → enumerate start l !! index = Some ((start + index)%nat, x).
Proof.
  revert start index. induction l as [|a l IH]; intros start [|index] Hx;
    simplify_eq/=.
  - by rewrite Nat.add_0_r.
  - rewrite (IH (S start) index Hx). do 2 f_equal. lia.
Qed.

Lemma enumerate_length {A} (l : list A) (start : nat) :
  length (enumerate start l) = length l.
Proof. revert start. induction l as [|a l IH]; intros start; simpl; by rewrite ?IH. Qed.

Lemma observed_left_distinct chain index key :
  distinct_neighbours chain → chain !! index = Some key →
  observed_left_tablename chain index key = prefix_left_tablename chain index key.
Proof.
  intros Hd Hkey. destruct index as [|j]; [done|]. simpl.
  destruct (chain !! j) as [previous|] eqn:Hj.
  - rewrite decide_False; [done|]. by eapply Hd.
  - apply lookup_ge_None in Hj. apply lookup_lt_Some in Hkey. lia.
Qed.

(** C2. The join of step [index] is aliased by the prefix
    [chain[0..index]], each link giving [tablename$keyname] and the links
    joined by [$], and its left-hand table is the alias of the prefix
    [chain[0..index-1]], or, at step 0, the formatted name of the root
    table, the table that has the first link. The links of a chain are
    distinct objects, as attribute traversal makes them: each step reads
    the previous alias back from the previous link. *)
Theorem joins_use_prefix_aliases (column : Column) w :
  distinct_neighbours (call_chain column) →
  ∃ joins w',
    column_joins column w = (inr joins, w')
    ∧ length joins = length (call_chain column)
    ∧ ∀ index key, call_chain column !! index = Some key →
        let alias_of prefix :=
          String.concat "$"
            ((λ k, key_tablename k +:+ "$" +:+ key_name k) <$> prefix) in
        joins !! index
        = Some (left_join (key_right_tablename key)
                  (alias_of (take (S index) (call_chain column)))
                  (match index with
                   | 0 => key_formatted_tablename key
                   | S _ => alias_of (take index (call_chain column))
                   end)
                  (key_name key) (key_pk_name key)).
Proof.
  intros Hd. destruct (column_joins_run column w) as (w' & Hrun & _).
  eexists _, w'. split; [exact Hrun|]. split.
  - by rewrite length_fmap, enumerate_length.
  - intros index key Hkey alias_of.
    rewrite list_lookup_fmap, (enumerate_lookup _ 0 index key Hkey). simpl.
    unfold join_with. rewrite (observed_left_distinct _ _ _ Hd Hkey).
    by destruct index.
Qed.

(** Deriving joins never raises and leaves the query object alone. *)
Lemma _get_joins_run (cols : list Selectable) w :
  ∃ joins w', _get_joins cols w = (inr joins, w') ∧ query w' = query w.
Proof.
  unfold _get_joins.
  generalize (cols ++ concat (readable_columns_of <$> cols))%list. intros l.
  assert (∃ js w',
            map_eff (λ column, match column with
                               | SelColumn c => column_joins c
                               | _ => ret []
                               end) l w = (inr js, w') ∧ query w' = query w)
    as (js & w' & Hrun & Hq).
  { revert w. induction l as [|c l IH]; intros w.
    - by exists [], w.
    - simpl. unfold bind at 1.
      assert (∃ j w1, match c with
                      | SelColumn c => column_joins c
                      | _ => ret []
                      end w = (inr j, w1) ∧ query w1 = query w)
        as (j & w1 & Hc & Hq1).
      { destruct c; try (by exists [], w).
        destruct (column_joins_run c w) as (w1 & -> & ?). by eexists _, w1. }
      rewrite Hc. destruct (IH w1) as (js & w' & Hl & Hq).
      exists (j :: js), w'. cbv beta iota. unfold bind at 1.
      rewrite Hl. split; [done|congruence]. }
  exists (fromkeys (concat js)), w'. unfold bind. by rewrite Hrun.
Qed.
End JoinClaims.

Section AssemblyClaims.
Context `{Collaborators}.
Implicit Types (w : World).

Lemma append_assoc (a b c : string) : (a +:+ b) +:+ c = a +:+ b +:+ c.
Proof.
  induction a as [|x a IH]; [done|].
  change (String x ((a +:+ b) +:+ c) = String x (a +:+ b +:+ c)). by f_equal.
Qed.

Lemma append_nil_r (a : string) : a +:+ "" = a.
Proof.
  induction a as [|x a IH]; [done|].
  change (String x (a +:+ "") = String x a). by f_equal.
Qed.

Lemma joins_text_cons (join : string) (joins : list string) :
  joins_text (join :: joins) = (" " +:+ join) +:+ joins_text joins.
Proof.
  unfold joins_text. rewrite fmap_cons.
  destruct joins as [|j joins]; [by rewrite append_nil_r|done].
Qed.

Lemma foldl_add_text (joins : list string) (qa : string * list QueryString) :
  foldl (λ qa join, add_text (" " +:+ join) qa) qa joins
  = (qa.1 +:+ joins_text joins, qa.2).
Proof.
  revert qa. induction joins as [|join joins IH]; intros [query args].
  - simpl. by rewrite append_nil_r.
  - cbn [foldl]. rewrite IH, joins_text_cons. unfold add_text. simpl.
    by rewrite append_assoc.
Qed.

Lemma add_optional_template {A} (o : option A) (text : string) (render : A → QueryString)
    (qa : string * list QueryString) :
  (add_optional o text render qa).1
  = qa.1 +:+ (match o with Some _ => text | None => "" end).
Proof. destruct o; simpl; [done|by rewrite append_nil_r]. Qed.

(** A built template is the SELECT and FROM part, the join fragments in
    their order, and the remaining clauses. *)
Lemma assemble_template (q : Select) (joins : list string)
    (querystrings : list QueryString) :
  assemble q joins = inr querystrings →
  ∃ tail args,
    querystrings
    = [QS (("SELECT{}"
            +:+ " " +:+ String.concat ", "
                          (get_select_string (engine_type (table q))
                             <$> selected_columns q)
            +:+ " FROM " +:+ formatted_tablename (table q))
           +:+ joins_text joins +:+ tail) args].
Proof.
  unfold assemble. destruct (if truthy_seq _ then _ else _); [done|]. simpl.
  destruct (_ && _ && _); [done|]. intros [= <-].
  rewrite !add_optional_template.
  destruct (bool_decide (order_by_items (_order_by q) ≠ [])).
  - unfold add_arg at 1. cbn [fst]. rewrite !add_optional_template, foldl_add_text.
    eexists _, _. do 2 f_equal. cbn [fst add_text add_arg].
    rewrite !append_assoc. reflexivity.
  - rewrite !add_optional_template, foldl_add_text.
    eexists _, _. do 2 f_equal. cbn [fst add_text add_arg].
    rewrite !append_assoc. reflexivity.
Qed.

Lemma combined_joins_run w :
  _check_valid_call_chain (selected_columns (query w)) = inr true →
  ∃ select_joins where_joins order_by_joins w1 w2 w3,
    _get_joins (selected_columns (query w)) w = (inr select_joins, w1)
    ∧ _get_joins (get_where_columns (query w)) w1 = (inr where_joins, w2)
    ∧ _get_joins (get_order_by_columns (query w)) w2 = (inr order_by_joins, w3)
    ∧ combined_joins w
      = (inr (fromkeys (select_joins ++ where_joins ++ order_by_joins)), w3)
    ∧ query w3 = query w.
Proof.
  intros Hcheck.
  destruct (_get_joins_run (selected_columns (query w)) w)
    as (sj & w1 & Hs & Hq1).
  destruct (_get_joins_run (get_where_columns (query w)) w1)
    as (wj & w2 & Hw & Hq2).
  destruct (_get_joins_run (get_order_by_columns (query w)) w2)
    as (oj & w3 & Ho & Hq3).
  exists sj, wj, oj, w1, w2, w3. split_and!; [done..| |congruence].
  unfold combined_joins, bind, get, lift, ret. by rewrite Hcheck, Hs, Hw, Ho.
Qed.

(** *** How a build proceeds *)

Lemma _check_valid_call_chain_cases (keys : list Selectable) :
  (_check_valid_call_chain keys = inr true
   ∧ ∀ c, SelColumn c ∈ keys → (length (call_chain c) ≤ 10)%nat)
  ∨ (_check_valid_call_chain keys = inl CallChainError
     ∧ ∃ c, SelColumn c ∈ keys ∧ (10 < length (call_chain c))%nat).
Proof.
  unfold _check_valid_call_chain.
  induction keys as [|k keys IH]; simpl.
  - left. split; [done|]. intros c Hc. by apply elem_of_nil in Hc.
  - destruct k as [c| | | | | | | |];
      try (destruct IH as [[IH1 IH2]|[IH1 (c' & Hin & Hlen)]];
           [left; split;
            [by destruct (map_result _ keys)
            |intros c0 Hc0; apply elem_of_cons in Hc0 as [?|?]; [done|by apply IH2]]
           |right; split;
            [by destruct (map_result _ keys)
            |exists c'; split; [by right|done]]]).
    destruct (decide (10 < length (call_chain c))%nat) as [Hlong|Hshort].
    + right. rewrite !bool_decide_eq_true_2; [|done|].
      * simpl. split; [done|]. exists c. split; [left|done].
      * intros E. rewrite E in Hlong. simpl in Hlong. lia.
    + rewrite (bool_decide_eq_false_2 (10 < _)%nat) by done.
      rewrite andb_false_r. simpl.
      destruct IH as [[IH1 IH2]|[IH1 (c' & Hin & Hlen)]].
      * left. split; [by destruct (map_result _ keys)|].
        intros c0 Hc0. apply elem_of_cons in Hc0 as [Hc0|?]; [|by apply IH2].
        injection Hc0 as ->. lia.
      * right. split; [by destruct (map_result _ keys)|].
        exists c'. split; [by right|done].
Qed.

Lemma combined_joins_raises w e :
  _check_valid_call_chain (selected_columns (query w)) = inl e →
  combined_joins w = (inl e, w).
Proof.
  intros Hc. unfold combined_joins, bind, get, lift. by rewrite Hc.
Qed.

Lemma combined_joins_returns w :
  _check_valid_call_chain (selected_columns (query w)) = inr true →
  ∃ joins w', combined_joins w = (inr joins, w') ∧ query w' = query w.
Proof.
  intros Hc.
  destruct (combined_joins_run w Hc)
    as (sj & wj & oj & w1 & w2 & w3 & _ & _ & _ & Hj & Hq).
  by eexists _, w3.
Qed.

Lemma default_querystrings_raises w e :
  _check_valid_call_chain (selected_columns (query w)) = inl e →
  default_querystrings w = (inl e, w).
Proof.
  intros Hc. unfold default_querystrings, bind at 1.
  by rewrite (combined_joins_raises w e Hc).
Qed.

Lemma default_querystrings_returns w :
  _check_valid_call_chain (selected_columns (query w)) = inr true →
  ∃ joins w',
    combined_joins w = (inr joins, w')
    ∧ query w' = query w
    ∧ default_querystrings w
      = (assemble (expand_selection (query w)) joins,
         set_query (expand_selection (query w)) w').
Proof.
  intros Hc. destruct (combined_joins_returns w Hc) as (joins & w' & Hj & Hq).
  exists joins, w'. split_and!; [done..|].
  unfold default_querystrings, bind at 1. rewrite Hj.
  unfold bind, modify, get, lift. simpl. by rewrite Hq.
Qed.

(** C1. When the call-chain check lets the build go on, the join fragments
    of the query are those of the selected columns, then those of the
    WHERE columns, then those of the ORDER BY columns, with every fragment
    kept once, at the place of its first occurrence; a built query string
    carries them in that order, between the FROM part and the other
    clauses. *)
Theorem joins_collected_in_order_without_duplicates w :
  _check_valid_call_chain (selected_columns (query w)) = inr true →
  ∃ select_joins where_joins order_by_joins w1 w2 w3,
    _get_joins (selected_columns (query w)) w = (inr select_joins, w1)
    ∧ _get_joins (get_where_columns (query w)) w1 = (inr where_joins, w2)
    ∧ _get_joins (get_order_by_columns (query w)) w2 = (inr order_by_joins, w3)
    ∧ let collected := (select_joins ++ where_joins ++ order_by_joins)%list in
      ∃ joins,
        combined_joins w = (inr joins, w3)
        ∧ joins = fromkeys collected
        ∧ NoDup joins
        ∧ (∀ x, x ∈ joins ↔ x ∈ collected)
        ∧ (∀ x y before after,
             joins = (before ++ x :: after)%list → y ∈ after →
             ∃ l1 l2, collected = (l1 ++ x :: l2)%list
                      ∧ (x ∉ l1) ∧ (y ∉ l1) ∧ y ∈ l2)
        ∧ (∀ querystrings w',
             default_querystrings w = (inr querystrings, w') →
             ∃ tail args,
               querystrings
               = [QS (("SELECT{}" +:+ " "
                       +:+ String.concat ", "
                             (get_select_string (engine_type (table (query w')))
                                <$> selected_columns (query w'))
                       +:+ " FROM " +:+ formatted_tablename (table (query w')))
                      +:+ String.concat "" ((λ join, " " +:+ join) <$> joins)
                      +:+ tail) args]).
Proof.
  intros Hcheck.
  destruct (combined_joins_run w Hcheck)
    as (sj & wj & oj & w1 & w2 & w3 & Hs & Hw & Ho & Hj & _).
  exists sj, wj, oj, w1, w2, w3. split_and!; [done..|].
  intros collected. exists (fromkeys collected). split_and!; [done..| | | |].
  - apply fromkeys_NoDup.
  - apply fromkeys_elem_of.
  - intros x y before after. apply fromkeys_first_seen.
  - intros querystrings w' Hb.
    destruct (default_querystrings_returns w Hcheck) as (joins & w'' & Hj' & _ & Hb').
    rewrite Hj in Hj'. injection Hj' as <- <-.
    rewrite Hb' in Hb. injection Hb as Hb <-.
    destruct (assemble_template _ _ _ Hb) as (tail & args & ->).
    exists tail, args. reflexivity.
Qed.

(** [expand_selection] writes the selection and nothing else. *)
Lemma expand_selection_frame (q : Select) :
  ∃ cols, expand_selection q = set_selected_columns cols q.
Proof.
  unfold expand_selection.
  destruct (decide (length (selected_columns q) = 0)%nat), (exclude_secrets q) eqn:E;
    simpl; rewrite ?E; eauto.
  exists (selected_columns q). by destruct q.
Qed.

Lemma assemble_sqlite_offset_without_limit (q : Select) (joins : list string) :
  engine_type (table q) = sqlite → is_Some (_offset q) → _limit q = None →
  ∃ e, assemble q joins = inl e.
Proof.
  intros He Ho Hl. unfold assemble.
  destruct (if truthy_seq _ then _ else _) as [e|[]]; simpl; [by eexists|].
  rewrite He, Hl. rewrite !bool_decide_eq_true_2 by done.
  rewrite bool_decide_eq_false_2 by (by intros [? ?]). simpl. by eexists.
Qed.

Lemma assemble_with_limit (q : Select) (joins : list string) :
  is_Some (_limit q) → distinct_on_accepted q →
  ∃ querystring, assemble q joins = inr [querystring].
Proof.
  intros Hl Hd. unfold assemble. unfold distinct_on_accepted in Hd.
  rewrite Hd. simpl.
  rewrite (bool_decide_eq_true_2 (is_Some (_limit q))) by done.
  rewrite andb_false_r. by eexists.
Qed.

Lemma assemble_never_call_chain_error (q : Select) (joins : list string) :
  assemble q joins ≠ inl CallChainError.
Proof.
  unfold assemble, validate_on.
  destruct (truthy_seq _); [case_bool_decide|]; simpl; try done;
    by destruct (_ && _ && _).
Qed.

(** A selected column with more than ten links stops the build at once. *)
Lemma long_selected_chain_raises w (c : Column) :
  SelColumn c ∈ selected_columns (query w) →
  (10 < length (call_chain c))%nat →
  default_querystrings w = (inl CallChainError, w).
Proof.
  intros Hin Hlong. apply default_querystrings_raises.
  destruct (_check_valid_call_chain_cases (selected_columns (query w)))
    as [[_ Hshort]|[Hc _]]; [|done].
  specialize (Hshort c Hin). lia.
Qed.

(** The check looks at the selected columns only: when they pass, no
    column of the WHERE or ORDER BY clause can make the build raise the
    call-chain error, however long its chain. *)
Lemma unselected_chains_are_not_checked w :
  _check_valid_call_chain (selected_columns (query w)) = inr true →
  (default_querystrings w).1 ≠ inl CallChainError.
Proof.
  intros Hc. destruct (default_querystrings_returns w Hc) as (j & w' & _ & _ & ->).
  apply assemble_never_call_chain_error.
Qed.

Lemma assemble_offset_error (q : Select) (joins : list string) :
  assemble q joins
  = inl (ValueError "A limit clause must be provided when doing an offset with SQLite.") →
  distinct_on_accepted q.
Proof.
  unfold assemble, distinct_on_accepted, validate_on.
  destruct (truthy_seq _); [|done]. by case_bool_decide.
Qed.

(** C9. On SQLite a query with OFFSET and without LIMIT never builds, and
    the error reaches the caller of [run] without the executor having a
    say. The same query with a positive LIMIT builds: this holds for every
    query that the other two guards of the build let pass, the call-chain
    check of the selected columns and the validation of DISTINCT ON, and so
    for every query whose build stopped at the OFFSET guard. *)
Theorem sqlite_offset_requires_limit w :
  engine_type (table (query w)) = sqlite →
  is_Some (_offset (query w)) →
  _limit (query w) = None →
  (∃ e w', default_querystrings w = (inl e, w') ∧ Query_run w = (inl e, w'))
  ∧ (∀ number : Z,
       (0 < number)%Z →
       _check_valid_call_chain (selected_columns (query w)) = inr true →
       distinct_on_accepted (query w) →
       ∃ querystring w',
         default_querystrings (set_query (limit number (query w)) w)
         = (inr [querystring], w'))
  ∧ (∀ (number : Z) w',
       (0 < number)%Z →
       default_querystrings w
       = (inl (ValueError
                 "A limit clause must be provided when doing an offset with SQLite."),
          w') →
       ∃ querystring w'',
         default_querystrings (set_query (limit number (query w)) w)
         = (inr [querystring], w'')).
Proof.
  intros He Ho Hl.
  assert (Hlimit : ∀ number : Z,
            _check_valid_call_chain (selected_columns (query w)) = inr true →
            distinct_on_accepted (query w) →
            ∃ querystring w',
              default_querystrings (set_query (limit number (query w)) w)
              = (inr [querystring], w')).
  { intros number Hc Hd.
    set (w2 := set_query (limit number (query w)) w).
    destruct (default_querystrings_returns w2 Hc) as (j & w' & _ & _ & ->).
    destruct (expand_selection_frame (query w2)) as [cols ->].
    destruct (assemble_with_limit (set_selected_columns cols (query w2)) j)
      as [qs ->]; [by eexists|exact Hd|eauto]. }
  split_and!.
  - assert (∃ e w', default_querystrings w = (inl e, w')) as (e & w' & Hb).
    { destruct (_check_valid_call_chain_cases (selected_columns (query w)))
        as [[Hc _]|[Hc _]].
      - destruct (default_querystrings_returns w Hc) as (j & w' & _ & _ & ->).
        destruct (expand_selection_frame (query w)) as [cols ->].
        destruct (assemble_sqlite_offset_without_limit
                    (set_selected_columns cols (query w)) j) as [e ->]; eauto.
      - rewrite (default_querystrings_raises w _ Hc). eauto. }
    exists e, w'. split; [done|]. unfold Query_run, bind at 1. by rewrite Hb.
  - intros number _. apply Hlimit.
  - intros number w' _ Hb.
    destruct (_check_valid_call_chain_cases (selected_columns (query w)))
      as [[Hc _]|[Hc _]].
    + apply Hlimit; [done|].
      destruct (default_querystrings_returns w Hc) as (j & w1 & _ & _ & Hb1).
      rewrite Hb1 in Hb. injection Hb as Hb _.
      destruct (expand_selection_frame (query w)) as [cols Hcols].
      rewrite Hcols in Hb. exact (assemble_offset_error _ _ Hb).
    + rewrite (default_querystrings_raises w _ Hc) in Hb. done.
Qed.

(** C10. Building a query that selects no column replaces its selection
    by the columns of the table, without the secret ones when
    [exclude_secrets] is set, and changes nothing else of the query; this
    happens whether or not the build then raises. From then on the
    response handler no longer takes it for a select-all (unless that
    selection is empty), and building again keeps the selection. *)
Theorem build_replaces_empty_selection w :
  selected_columns (query w) = [] →
  let q := query w in
  let cols := if exclude_secrets q
              then remove_secret_columns (SelColumn <$> columns (table q))
              else SelColumn <$> columns (table q) in
  ∃ result w',
    default_querystrings w = (result, w')
    ∧ query w' = set_selected_columns cols q
    ∧ (∀ c, exclude_secrets q = true → SelColumn c ∈ selected_columns (query w') →
            secret c = false)
    ∧ was_select_star (query w') = bool_decide (cols = [])
    ∧ ∀ result2 w2, default_querystrings w' = (result2, w2) → query w2 = query w'.
Proof.
  intros Hsel q cols.
  assert (Hc : _check_valid_call_chain (selected_columns (query w)) = inr true)
    by (by rewrite Hsel).
  destruct (default_querystrings_returns w Hc) as (j & w' & _ & Hq & Hb).
  assert (Hexp : expand_selection q = set_selected_columns cols q).
  { unfold expand_selection. fold q in Hsel. rewrite Hsel. simpl.
    subst cols. by destruct (exclude_secrets q). }
  eexists _, _. split; [exact Hb|]. fold q. rewrite Hexp. simpl.
  split_and!; [done| | |].
  - intros c He Hin. subst cols. rewrite He in Hin.
    apply list_elem_of_filter in Hin as [Hs _]. done.
  - unfold was_select_star. simpl. apply bool_decide_ext.
    by rewrite length_zero_iff_nil.
  - intros result2 w2 Hb2.
    set (w1 := set_query (set_selected_columns cols q) w') in *.
    assert (Hstable : expand_selection (query w1) = query w1).
    { unfold expand_selection. simpl. subst cols.
      destruct (exclude_secrets q) eqn:E; simpl.
      - destruct (decide _) as [Hz|Hz]; simpl; rewrite E.
        + apply length_zero_iff_nil in Hz.
          unfold set_selected_columns. simpl. by rewrite Hz.
        + unfold set_selected_columns, remove_secret_columns. simpl.
          by rewrite list_filter_filter_l.
      - destruct (decide _) as [Hz|Hz]; simpl; rewrite E; [|done].
        apply length_zero_iff_nil in Hz.
        unfold set_selected_columns. simpl. by rewrite Hz. }
    destruct (_check_valid_call_chain_cases (selected_columns (query w1)))
      as [[Hc1 _]|[Hc1 _]].
    + destruct (default_querystrings_returns w1 Hc1) as (? & w3 & _ & Hq3 & Hb3).
      rewrite Hb3 in Hb2. injection Hb2 as _ <-. exact Hstable.
    + rewrite (default_querystrings_raises w1 _ Hc1) in Hb2. by injection Hb2 as _ <-.
Qed.
End AssemblyClaims.

(** ** Pure code that can raise *)

Lemma map_result_Forall2 {A B} (f : A → Result B) (xs : list A) (ys : list B) :
  map_result f xs = inr ys ↔ Forall2 (λ x y, f x = inr y) xs ys.
Proof.
  revert ys. induction xs as [|x xs IH]; intros ys; simpl.
  - split; [intros [= <-]; constructor|by inversion 1].
  - destruct (f x) as [e|y] eqn:Hx; simpl.
    + split; [done|]. inversion 1; congruence.
    + destruct (map_result f xs) as [e|ys'] eqn:Hxs; simpl.
      * split; [done|]. inversion 1; subst.
        assert (Hn : inl e = inr l') by (by apply IH). done.
      * split.
        -- intros [= <-]. constructor; [done|by apply IH].
        -- inversion 1; subst.
           assert (Hn : inr ys' = inr l') by (by apply IH).
           congruence.
Qed.

Lemma map_result_returns {A B} (f : A → Result B) (xs : list A) :
  Forall (λ x, ∃ y, f x = inr y) xs → ∃ ys, map_result f xs = inr ys.
Proof.
  induction 1 as [|x xs [y Hy] _ [ys IH]]; simpl; [by eexists|].
  rewrite Hy, IH. simpl. by eexists.
Qed.

Lemma dict_get_set_eq (k : string) (v : Value) (d : Row) :
  dict_get k (dict_set k v d) = Some v.
Proof.
  induction d as [|[k' v'] d IH]; simpl.
  - by rewrite decide_True.
  - destruct (decide (k' = k)) as [->|Hne]; simpl.
    + by rewrite decide_True.
    + by rewrite decide_False.
Qed.

(** ** Many-to-many splicing *)

Section Splicing.
Context `{Collaborators}.

Lemma mapping_step_raised (value : Row → Result Value) (e : Exception)
    (rows : list Row) :
  foldl (mapping_step value) (inl e) rows = inl e.
Proof. induction rows as [|row rows IH]; simpl; [done|exact IH]. Qed.

Lemma mapping_step_inv (value : Row → Result Value) (m0 m1 : gmap Atom Value)
    (row : Row) :
  mapping_step value (inr m0) row = inr m1 →
  ∃ a v, dict_get "mapping_key" row = Some (VAtom a) ∧ m1 = <[a := v]> m0.
Proof.
  unfold mapping_step, subscript. simpl.
  destruct (dict_get "mapping_key" row) as [key|]; simpl; [|done].
  destruct (value row) as [e|v]; simpl; [done|].
  destruct key as [a| |]; simpl; [|done..].
  intros [= <-]. by exists a, v.
Qed.

(** The mapping only has the keys that the secondary rows bring. *)
Lemma mapping_of_absent (value : Row → Result Value) (extra_rows : list Row)
    (m : gmap Atom Value) (k : Atom) :
  mapping_of value extra_rows = inr m →
  (∀ row, row ∈ extra_rows → dict_get "mapping_key" row ≠ Some (VAtom k)) →
  m !! k = None.
Proof.
  unfold mapping_of.
  assert (Hgen : ∀ m0 : gmap Atom Value,
    m0 !! k = None →
    foldl (mapping_step value) (inr m0) extra_rows = inr m →
    (∀ row, row ∈ extra_rows → dict_get "mapping_key" row ≠ Some (VAtom k)) →
    m !! k = None).
  { induction extra_rows as [|row rows IH]; intros m0 Hm0 Hfold Hrows.
    - simpl in Hfold. congruence.
    - change (foldl (mapping_step value) (mapping_step value (inr m0) row) rows
              = inr m) in Hfold.
      destruct (mapping_step value (inr m0) row) as [e|m1] eqn:Hstep.
      { by rewrite mapping_step_raised in Hfold. }
      apply mapping_step_inv in Hstep as (a & v & Hkey & ->).
      eapply (IH (<[a := v]> m0)); [|exact Hfold|].
      + rewrite lookup_insert_ne; [done|]. intros ->.
        by apply (Hrows row); [left|].
      + intros r Hr. apply Hrows. by right. }
  intros Hm Hrows. by eapply (Hgen ∅).
Qed.

(** Rows as the executor hands them to the splicing: the relation's name
    holds a list of hashable identifiers. *)
Lemma mapping_of_returns (value : Row → Result Value) (extra_rows : list Row) :
  Forall (λ row, (∃ a, dict_get "mapping_key" row = Some (VAtom a))
                 ∧ ∃ v, value row = inr v) extra_rows →
  ∃ m, mapping_of value extra_rows = inr m.
Proof.
  intros Hall. unfold mapping_of. generalize (∅ : gmap Atom Value) as m0.
  induction Hall as [|row rows [[a Ha] [v Hv]] _ IH]; intros m0; [by eexists|].
  cbn [foldl].
  assert (Hstep : mapping_step value (inr m0) row = inr (<[a := v]> m0)).
  { unfold mapping_step, subscript. simpl. by rewrite Ha, Hv. }
  rewrite Hstep. apply IH.
Qed.

(** Splicing returns on well-formed input: every row has a list of hashable
    identifiers under the relation's name, and every secondary row has a
    hashable mapping key (and, for [as_list], the requested column). *)
Lemma splice_returns (response : list Row) (m2m_name : string)
    (m2m_select : M2MSelect) (as_list : bool) :
  Forall (λ row, ∃ ids, dict_get m2m_name row = Some (VList (VAtom <$> ids))) response →
  (∀ row_ids, ∃ extra_rows,
      select_secondary_rows m2m_select row_ids = inr extra_rows
      ∧ Forall (λ row, (∃ a, dict_get "mapping_key" row = Some (VAtom a))
                       ∧ (as_list = true →
                          ∃ c cols v, m2m_columns m2m_select = c :: cols
                                      ∧ dict_get (column_name c) row = Some v))
               extra_rows) →
  (as_list = true → m2m_columns m2m_select ≠ []) →
  ∃ response', _splice_m2m_rows response m2m_name m2m_select as_list = inr response'.
Proof.
  intros Hrows Hsecondary Hcolumns. unfold _splice_m2m_rows.
  assert (Hids : ∀ row, row ∈ response →
            ∃ ids, row_identifiers m2m_name row = inr (VAtom <$> ids)).
  { intros row Hin. rewrite Forall_forall in Hrows.
    destruct (Hrows row Hin) as [ids Hget]. exists ids.
    unfold row_identifiers, subscript. by rewrite Hget. }
  destruct (map_result_returns (row_identifiers m2m_name) response) as [all_ids Hall].
  { apply Forall_forall. intros row Hin. destruct (Hids row Hin). eauto. }
  rewrite Hall. cbn [rbind].
  assert (Hatoms : Forall (λ v, ∃ a, v = VAtom a) (concat all_ids)).
  { apply map_result_Forall2 in Hall. apply Forall_concat.
    apply Forall_forall. intros ids Hin.
    apply list_elem_of_lookup in Hin as [i Hi].
    destruct (Forall2_lookup_r _ _ _ _ _ Hall Hi) as (row & Hrow & Hrun).
    destruct (Hids row) as [atoms Hatoms]; [by eapply list_elem_of_lookup_2|].
    rewrite Hatoms in Hrun. injection Hrun as <-.
    apply Forall_fmap, Forall_forall. intros a _. by exists a. }
  destruct (map_result_returns as_key (concat all_ids)) as [keys Hkeys].
  { eapply Forall_impl; [exact Hatoms|]. intros v [a ->]. by exists a. }
  rewrite Hkeys. cbn [rbind].
  set (row_ids := elements (list_to_set keys : gset Atom)).
  assert (∃ extra_rows,
            (if bool_decide (row_ids ≠ [])
             then select_secondary_rows m2m_select row_ids
             else inr []) = inr extra_rows
            ∧ Forall (λ row, (∃ a, dict_get "mapping_key" row = Some (VAtom a))
                             ∧ (as_list = true →
                                ∃ c cols v, m2m_columns m2m_select = c :: cols
                                            ∧ dict_get (column_name c) row = Some v))
                     extra_rows) as (extra_rows & -> & Hextra).
  { case_bool_decide; [apply Hsecondary|]. by exists []. }
  cbn [rbind].
  assert (Hvalues : ∀ m : gmap Atom Value,
            ∃ response',
              map_result
                (λ row, rbind (row_identifiers m2m_name row) (λ ids,
                        rbind (map_result (map_get m) ids) (λ values,
                        inr (dict_set m2m_name (VList values) row))))
                response = inr response').
  { intros m. apply map_result_returns, Forall_forall. intros row Hin.
    destruct (Hids row Hin) as [ids ->]. cbn [rbind].
    destruct (map_result_returns (map_get m) (VAtom <$> ids)) as [values ->].
    { apply Forall_fmap, Forall_forall. intros a _. simpl. by eexists. }
    cbn [rbind]. by eexists. }
  destruct as_list.
  - destruct (m2m_columns m2m_select) as [|c cols] eqn:Hc; [by destruct Hcolumns|].
    match goal with
    | |- context [mapping_of ?f extra_rows] =>
        destruct (mapping_of_returns f extra_rows) as [m ->]
    end; [|apply Hvalues].
    eapply Forall_impl; [exact Hextra|].
    intros row [Hkey Hcol]. split; [done|].
    destruct (Hcol eq_refl) as (c' & cols' & v & [= <- <-] & Hv).
    exists v. unfold subscript. by rewrite Hv.
  - match goal with
    | |- context [mapping_of ?f extra_rows] =>
        destruct (mapping_of_returns f extra_rows) as [m ->]
    end; [|apply Hvalues].
    eapply Forall_impl; [exact Hextra|].
    intros row [Hkey _]. split; [done|by eexists].
Qed.

Lemma elem_of_concat {A} (x : A) (ls : list (list A)) :
  x ∈ concat ls ↔ ∃ l, l ∈ ls ∧ x ∈ l.
Proof.
  induction ls as [|l ls IH]; simpl.
  - split; [by intros ?%elem_of_nil|by intros (? & ?%elem_of_nil & _)].
  - rewrite elem_of_app, IH. split.
    + intros [Hx|(l' & Hl' & Hx)]; [exists l; split; [left|done]|].
      exists l'. split; [by right|done].
    + intros (l' & Hl' & Hx). apply elem_of_cons in Hl' as [->|Hl']; [by left|].
      right. by exists l'.
Qed.

Lemma as_key_inv (v : Value) (k : Atom) : as_key v = inr k ↔ v = VAtom k.
Proof. destruct v; simpl; split; intros; simplify_eq; done. Qed.

(** The identifiers asked of the secondary table are those of all rows. *)
Lemma collected_identifiers (response : list Row) (m2m_name : string)
    (all_ids : list (list Value)) (keys : list Atom) (k : Atom) :
  map_result (row_identifiers m2m_name) response = inr all_ids →
  map_result as_key (concat all_ids) = inr keys →
  k ∈ keys ↔ ∃ row ids, row ∈ response
                        ∧ row_identifiers m2m_name row = inr ids
                        ∧ VAtom k ∈ ids.
Proof.
  intros Hall Hkeys.
  apply map_result_Forall2 in Hall. apply map_result_Forall2 in Hkeys.
  split.
  - intros Hin. apply list_elem_of_lookup in Hin as [i Hi].
    destruct (Forall2_lookup_r _ _ _ _ _ Hkeys Hi) as (v & Hv & Hkey).
    apply as_key_inv in Hkey as ->.
    apply list_elem_of_lookup_2 in Hv.
    apply elem_of_concat in Hv as (ids & Hids & Hin).
    apply list_elem_of_lookup in Hids as [j Hj].
    destruct (Forall2_lookup_r _ _ _ _ _ Hall Hj) as (row & Hrow & Hrun).
    exists row, ids. split_and!; [by eapply list_elem_of_lookup_2|done..].
  - intros (row & ids & Hrow & Hrun & Hin).
    apply list_elem_of_lookup in Hrow as [j Hj].
    destruct (Forall2_lookup_l _ _ _ _ _ Hall Hj) as (ids' & Hids & Hrun').
    assert (ids' = ids) as -> by congruence.
    assert (Hv : VAtom k ∈ concat all_ids).
    { apply elem_of_concat. exists ids. split; [|done].
      by eapply list_elem_of_lookup_2. }
    apply list_elem_of_lookup in Hv as [i Hi].
    destruct (Forall2_lookup_l _ _ _ _ _ Hkeys Hi) as (k' & Hk' & Hkey).
    apply as_key_inv in Hkey. injection Hkey as <-.
    by eapply list_elem_of_lookup_2.
Qed.

(** C4. When splicing returns, every row keeps its place. The auxiliary
    query is asked once, for the identifiers of all rows, each once, and
    not at all when there is none; the mapping is built from the rows it
    returns. The list under the relation's name then has one entry for
    each identifier of the row's original list, empty lists included: the
    entry is what the mapping holds for the identifier, and [None] when no
    secondary row has it as its mapping key. *)
Theorem splice_keeps_identifier_list_lengths (response response' : list Row)
    (m2m_name : string) (m2m_select : M2MSelect) (as_list : bool) :
  _splice_m2m_rows response m2m_name m2m_select as_list = inr response' →
  length response' = length response
  ∧ ∃ (row_ids : list Atom) (extra_rows : list Row)
      (extra_rows_map : gmap Atom Value),
      NoDup row_ids
      ∧ (∀ k, k ∈ row_ids ↔ ∃ row ids, row ∈ response
                                        ∧ row_identifiers m2m_name row = inr ids
                                        ∧ VAtom k ∈ ids)
      ∧ (if bool_decide (row_ids ≠ [])
         then select_secondary_rows m2m_select row_ids
         else inr []) = inr extra_rows
      ∧ (if as_list
         then ∃ c cols,
                m2m_columns m2m_select = c :: cols
                ∧ mapping_of (λ row, subscript row (column_name c)) extra_rows
                  = inr extra_rows_map
         else mapping_of
                (λ row, inr (VDict (filter (λ kv, kv.1 ≠ "mapping_key") row)))
                extra_rows
              = inr extra_rows_map)
      ∧ ∀ i row, response !! i = Some row →
          ∃ ids values row',
            row_identifiers m2m_name row = inr ids
            ∧ response' !! i = Some row'
            ∧ row' = dict_set m2m_name (VList values) row
            ∧ dict_get m2m_name row' = Some (VList values)
            ∧ length values = length ids
            ∧ (ids = [] → values = [])
            ∧ ∀ j id, ids !! j = Some id →
                ∃ k, id = VAtom k
                     ∧ values !! j = Some (default VNone (extra_rows_map !! k))
                     ∧ ((∀ r, r ∈ extra_rows →
                            dict_get "mapping_key" r ≠ Some (VAtom k)) →
                        values !! j = Some VNone).
Proof.
  unfold _splice_m2m_rows. intros Hrun.
  destruct (map_result (row_identifiers m2m_name) response) as [?|all_ids] eqn:Hall;
    simpl in Hrun; [done|].
  destruct (map_result as_key (concat all_ids)) as [?|keys] eqn:Hkeys;
    simpl in Hrun; [done|].
  set (row_ids := elements (list_to_set keys : gset Atom)) in Hrun.
  destruct (if bool_decide (row_ids ≠ []) then _ else _) as [?|extra_rows] eqn:Hextra;
    simpl in Hrun; [done|].
  destruct (if as_list then _ else _) as [?|extra_rows_map] eqn:Hmap;
    simpl in Hrun; [done|].
  apply map_result_Forall2 in Hrun. split.
  - symmetry. by eapply Forall2_length.
  - exists row_ids, extra_rows, extra_rows_map. split_and!.
    + apply NoDup_elements.
    + intros k. unfold row_ids. rewrite elem_of_elements, elem_of_list_to_set.
      by apply collected_identifiers with all_ids.
    + exact Hextra.
    + destruct as_list; [|exact Hmap].
      destruct (m2m_columns m2m_select) as [|c cols]; [done|]. by exists c, cols.
    + intros i row Hrow.
      destruct (Forall2_lookup_l _ _ _ _ _ Hrun Hrow) as (row' & Hrow' & Hstep).
      destruct (row_identifiers m2m_name row) as [?|ids]; simpl in Hstep; [done|].
      destruct (map_result (map_get extra_rows_map) ids) as [?|values] eqn:Hvalues;
        simpl in Hstep; [done|].
      injection Hstep as <-. apply map_result_Forall2 in Hvalues.
      exists ids, values, (dict_set m2m_name (VList values) row).
      split_and!; [done|done|done|apply dict_get_set_eq| | |].
      * symmetry. by eapply Forall2_length.
      * intros ->. by inversion Hvalues.
      * intros j id Hid.
        destruct (Forall2_lookup_l _ _ _ _ _ Hvalues Hid) as (v & Hv & Hget).
        unfold map_get in Hget. destruct id as [k| |]; simpl in Hget; try done.
        injection Hget as <-. exists k. split_and!; [done..|].
        intros Habsent. rewrite Hv. do 2 f_equal.
        assert (Hnone : extra_rows_map !! k = None); [|by rewrite Hnone].
        destruct as_list.
        -- destruct (m2m_columns m2m_select); [done|].
           by eapply mapping_of_absent.
        -- by eapply mapping_of_absent.
Qed.
End Splicing.

(** ** The response handler and the views *)

Section RunClaims.
Context `{Collaborators}.
Implicit Types (w : World).



Lemma Select_run_returns w (use_callbacks : bool) rows w' :
  Query_run w = (inr rows, w') →
  Select_run use_callbacks w
  = (inr (if use_callbacks then invoke (query w') (rows_value rows)
          else rows_value rows), w').
Proof.
  intros Hq. unfold Select_run, bind at 1. rewrite Hq.
  unfold bind, get. by destruct use_callbacks.
Qed.

Lemma Select_run_raises w (use_callbacks : bool) e w' :
  Query_run w = (inl e, w') → Select_run use_callbacks w = (inl e, w').
Proof. intros Hq. unfold Select_run, bind at 1. by rewrite Hq. Qed.

(** With a selection of plain columns, nested output sends every row
    through [make_nested]. *)
Lemma response_handler_nests_columns (q : Select) (cols : list Column)
    (response : list Row) :
  selected_columns q = SelColumn <$> cols → cols ≠ [] →
  nested (_output q) = true →
  response_handler q response
  = inr (make_nested <$> normalise_timestamps q response).
Proof.
  intros Hsel Hne Hnested. unfold response_handler.
  assert (Hm : m2m_selects q = []).
  { unfold m2m_selects. rewrite Hsel. clear. by induction cols. }
  rewrite Hm. simpl. rewrite Hnested. unfold was_select_star.
  rewrite bool_decide_eq_false_2; [done|].
  rewrite Hsel, length_fmap. by destruct cols.
Qed.

Lemma flatten_single_key_rows (rows : list Row) :
  Forall (λ row, length row = 1%nat) rows →
  Forall2 (λ row v, ∃ k, row = [(k, v)]) rows (concat (dict_values <$> rows)).
Proof.
  induction 1 as [|row rows Hrow _ IH]; simpl; [constructor|].
  destruct row as [|[k v] [|]]; simplify_eq/=. constructor; eauto.
Qed.

Lemma map_result_values_of (rows : list Row) :
  map_result values_of (VDict <$> rows) = inr (dict_values <$> rows).
Proof.
  induction rows as [|row rows IH]; [done|]. rewrite !fmap_cons.
  change (map_result values_of (VDict row :: (VDict <$> rows)))
    with (rbind (map_result values_of (VDict <$> rows))
                (λ ys, inr (dict_values row :: ys))).
  by rewrite IH.
Qed.

(** C7. The rows of one result set have the same keys, so the view looks
    at the first row: when a row has more than one key it raises; when no
    row matches it returns the empty list; otherwise it returns the values
    of all rows in order, each row's single value. The success callbacks,
    if any are registered, are applied to the list that is returned. *)
Theorem flat_list_view w rows w' :
  Query_run w = (inr rows, w') →
  (rows = [] →
     SelectList_run w = (inr (invoke (query w') (VList [])), w'))
  ∧ (∀ row0 rest, rows = row0 :: rest → length row0 = 1%nat →
       SelectList_run w
       = (inr (invoke (query w') (VList (concat (dict_values <$> rows)))), w'))
  ∧ (∀ row0 rest, rows = row0 :: rest → length row0 ≠ 1%nat →
       SelectList_run w
       = (inl (ValueError "Each row returned more than one value"), w'))
  ∧ (Forall (λ row, length row = 1%nat) rows →
       Forall2 (λ row v, ∃ k, row = [(k, v)]) rows
               (concat (dict_values <$> rows)))
  ∧ (∀ row0 rest, rows = row0 :: rest →
       Forall (λ row, length row = length row0) rows →
       Exists (λ row, 1 < length row)%nat rows →
       SelectList_run w
       = (inl (ValueError "Each row returned more than one value"), w')).
Proof.
  intros Hq.
  assert (Hrun : SelectList_run w
                 = (rbind (flatten_rows (VDict <$> rows))
                          (λ response, inr (invoke (query w') (VList response))), w')).
  { unfold SelectList_run, bind at 1.
    rewrite (Select_run_returns _ false _ _ Hq). unfold rows_value.
    unfold bind, lift, get, ret. by destruct (flatten_rows _). }
  assert (Hbad : ∀ row0 rest, rows = row0 :: rest → length row0 ≠ 1%nat →
            SelectList_run w
            = (inl (ValueError "Each row returned more than one value"), w')).
  { intros row0 rest -> Hlen. rewrite Hrun. simpl. unfold dict_keys.
    rewrite length_fmap. by rewrite bool_decide_eq_true_2. }
  split_and!.
  - intros ->. by rewrite Hrun.
  - intros row0 rest Hrows Hlen. rewrite Hrun. rewrite Hrows at 1. simpl.
    unfold dict_keys. rewrite length_fmap. rewrite bool_decide_eq_false_2 by tauto.
    pose proof (map_result_values_of rows) as Hv. rewrite Hrows in Hv at 1.
    simpl in Hv. rewrite Hv. done.
  - exact Hbad.
  - apply flatten_single_key_rows.
  - intros row0 rest Hrows Hsame Hex. apply (Hbad row0 rest Hrows).
    apply Exists_exists in Hex as (row & Hin & Hlong).
    rewrite Forall_forall in Hsame. specialize (Hsame row Hin). lia.
Qed.
End RunClaims.

(** * The properties on examples *)

(** [Sum] takes the integer column [id] and refuses the text column
    [name], which [Count] takes. *)
Lemma aggregates_check_numeric_operand_witness :
  Sum_init (plain_column "id" py_int) "sum"
  = inr {| sum_column := plain_column "id" py_int; sum_alias := "sum" |}
  ∧ (∃ msg, Avg_init (plain_column "name" py_str) "avg" = inl (ValueError msg))
  ∧ Count_init (Some (plain_column "name" py_str)) None "count"
    = inr {| count_column := Some (plain_column "name" py_str);
             count_distinct := None; count_alias := "count" |}.
Proof.
  destruct (aggregates_check_numeric_operand (plain_column "id" py_int) "sum")
    as (_ & _ & Hsum & _).
  destruct (aggregates_check_numeric_operand (plain_column "name" py_str) "avg")
    as (_ & Havg & _).
  destruct (aggregates_check_numeric_operand (plain_column "name" py_str) "count")
    as (_ & _ & _ & _ & _ & _ & Hcount).
  split; [apply Hsum; by left|]. split; [|exact Hcount].
  apply Havg. intros [?|[?|?]]; discriminate.
Defined.

(** The joins of [joined_query]: the selected and the WHERE column bring the
    same join, the ORDER BY column brings it again and a second one. *)
Lemma joins_collected_witness :
  ∃ joins w',
    combined_joins (fresh joined_query) = (inr joins, w')
    ∧ joins = [left_join (quoted "manager") "band$manager" (quoted "band")
                         "manager" "id";
               left_join (quoted "manager") "band$manager$manager$boss"
                         "band$manager" "boss" "id"]
    ∧ NoDup joins.
Proof.
  destruct (joins_collected_in_order_without_duplicates (H := demo [] [])
              (fresh joined_query) eq_refl)
    as (sj & wj & oj & w1 & w2 & w3 & Hs & Hw & Ho & joins & Hj & Heq & Hnd & _).
  exists joins, w3. split_and!; [done| |done].
  vm_compute in Hj. by injection Hj as <- _.
Defined.

Lemma joins_use_prefix_aliases_witness :
  distinct_neighbours (call_chain band_manager_boss_name)
  ∧ ∃ joins w',
      column_joins band_manager_boss_name (fresh joined_query) = (inr joins, w')
      ∧ joins !! 1%nat
        = Some (left_join (quoted "manager") "band$manager$manager$boss"
                          "band$manager" "boss" "id").
Proof.
  assert (Hd : distinct_neighbours (call_chain band_manager_boss_name)).
  { intros [|[|j]] a b Ha Hb; simplify_eq/=. done. }
  split; [exact Hd|].
  destruct (joins_use_prefix_aliases band_manager_boss_name (fresh joined_query) Hd)
    as (joins & w' & Hrun & _ & Hjoin).
  exists joins, w'. split; [done|].
  exact (Hjoin 1%nat (manager_boss 2) eq_refl).
Defined.

(** What C3 meets in the code: a query whose WHERE clause has a column
    eleven links away builds, with its eleven joins, instead of raising. *)
Theorem where_chain_of_eleven_links_builds :
  length (call_chain eleven_links) = 11%nat
  ∧ get_where_columns far_where_query = [SelColumn eleven_links]
  ∧ ∃ joins template args w1 w2,
      combined_joins (fresh far_where_query) = (inr joins, w1)
      ∧ length joins = 11%nat
      ∧ default_querystrings (H := demo [] []) (fresh far_where_query)
        = (inr [QS template args], w2).
Proof.
  split; [reflexivity|]. split; [reflexivity|].
  eexists _, _, _, _, _. split; [vm_compute; reflexivity|].
  split; [reflexivity|]. vm_compute. reflexivity.
Qed.

Lemma splice_keeps_identifier_list_lengths_witness :
  ∃ response',
    _splice_m2m_rows (H := demo [] genre_rows) rows_with_genre_ids "genres"
                     band_genres false = inr response'
    ∧ length response' = length rows_with_genre_ids
    ∧ response'
      = [[("name", VStr "Pythonistas");
          ("genres", VList [VDict [("name", VStr "Rock")];
                            VDict [("name", VStr "Folk")]; VNone])];
         [("name", VStr "Rustaceans"); ("genres", VList [])]].
Proof.
  destruct (_splice_m2m_rows (H := demo [] genre_rows) rows_with_genre_ids "genres"
                             band_genres false) as [e|response'] eqn:Hrun;
    [vm_compute in Hrun; discriminate|].
  exists response'. split; [done|].
  destruct (splice_keeps_identifier_list_lengths (H := demo [] genre_rows)
              _ _ _ _ _ Hrun) as [Hlen _].
  split; [exact Hlen|]. vm_compute in Hrun. by injection Hrun as <-.
Defined.

Lemma flat_list_view_witness :
  ∃ w',
    Query_run (H := demo band_rows []) (fresh (select_name postgres))
    = (inr band_rows, w')
    ∧ SelectList_run (H := demo band_rows []) (fresh (select_name postgres))
      = (inr (VList [VStr "Pythonistas"; VStr "Rustaceans"]), w').
Proof.
  destruct (Query_run (H := demo band_rows []) (fresh (select_name postgres)))
    as [[e|rows] w'] eqn:Hrun; [vm_compute in Hrun; discriminate|].
  destruct (flat_list_view (H := demo band_rows []) _ _ _ Hrun)
    as (_ & Hflat & _).
  pose proof Hrun as Hvalue. vm_compute in Hvalue. injection Hvalue as <- <-.
  eexists. split; [exact Hrun|].
  rewrite (Hflat _ _ eq_refl eq_refl). reflexivity.
Defined.

Lemma sqlite_offset_requires_limit_witness :
  (∃ e w', default_querystrings (H := demo [] [])
             (fresh (with_offset 5 (select_name sqlite))) = (inl e, w'))
  ∧ ∃ querystring w',
      default_querystrings (H := demo [] [])
        (fresh (limit 10 (with_offset 5 (select_name sqlite))))
      = (inr [querystring], w').
Proof.
  destruct (sqlite_offset_requires_limit (H := demo [] [])
              (fresh (with_offset 5 (select_name sqlite)))
              eq_refl ltac:(by eexists) eq_refl) as [(e & w' & Hb & _) [Hlimit _]].
  split; [by exists e, w'|].
  apply (Hlimit 10%Z); [lia|reflexivity|reflexivity].
Defined.

Lemma build_replaces_empty_selection_witness :
  ∃ result w',
    default_querystrings (H := demo [] []) (fresh select_from_manager_without_secrets)
    = (result, w')
    ∧ selected_columns (query w')
      = [SelColumn (plain_column "id" py_int); SelColumn (plain_column "name" py_str)]
    ∧ was_select_star (query w') = false.
Proof.
  destruct (build_replaces_empty_selection (H := demo [] [])
              (fresh select_from_manager_without_secrets) eq_refl)
    as (result & w' & Hb & Hq & _ & Hstar & _).
  exists result, w'. split; [done|]. rewrite Hstar, Hq. split; reflexivity.
Defined.

(** * Further properties *)

(** ** The call-chain check *)

(** X1. [_check_valid_call_chain] returns [True] or raises, never [False]:
    it raises exactly when a column that stands in the list itself has more
    than ten links. The columns of a readable and the operands of the
    aggregates are not looked at. *)
Theorem call_chain_check_raises_iff (keys : list Selectable) :
  (_check_valid_call_chain keys = inl CallChainError
   ↔ ∃ c, SelColumn c ∈ keys ∧ (10 < length (call_chain c))%nat)
  ∧ (_check_valid_call_chain keys = inr true
     ↔ ∀ c, SelColumn c ∈ keys → (length (call_chain c) ≤ 10)%nat)
  ∧ _check_valid_call_chain keys ≠ inr false.
Proof.
  destruct (_check_valid_call_chain_cases keys) as [[Hc Hall]|[Hc Hex]];
    rewrite Hc; split_and!; try done.
  - split; [done|]. intros (c & Hin & Hlong). specialize (Hall c Hin). lia.
  - split; [done|]. intros Hall. destruct Hex as (c & Hin & Hlong).
    specialize (Hall c Hin). lia.
Qed.

(** ** Join derivation in closed form *)

Lemma column_joins_closed (column : Column) (w : World) :
  ∃ w', column_joins column w = (inr (link_joins column), w') ∧ query w' = query w.
Proof. apply column_joins_run. Qed.

Lemma _get_joins_closed (cols : list Selectable) (w : World) :
  ∃ w', _get_joins cols w = (inr (fromkeys (raw_joins cols)), w')
        ∧ query w' = query w.
Proof.
  unfold _get_joins, raw_joins.
  generalize (cols ++ concat (readable_columns_of <$> cols))%list. intros l.
  assert (∃ w',
            map_eff (λ column, match column with
                               | SelColumn c => column_joins c
                               | _ => ret []
                               end) l w = (inr (selectable_joins <$> l), w')
            ∧ query w' = query w) as (w' & Hrun & Hq).
  { revert w. induction l as [|c l IH]; intros w.
    - by exists w.
    - simpl. unfold bind at 1.
      assert (∃ w1, match c with
                    | SelColumn c => column_joins c
                    | _ => ret []
                    end w = (inr (selectable_joins c), w1) ∧ query w1 = query w)
        as (w1 & Hc & Hq1).
      { destruct c; try (by exists w). apply column_joins_closed. }
      rewrite Hc. destruct (IH w1) as (w' & Hl & Hq).
      exists w'. cbv beta iota. unfold bind at 1.
      rewrite Hl. split; [done|congruence]. }
  exists w'. unfold bind. by rewrite Hrun.
Qed.

(** X2. The fragments [_get_joins] returns are a function of the columns
    alone: whatever aliases earlier derivations have left on the key
    objects, the result is the same, so deriving twice from the same
    columns gives the same list; and the query object is not touched. *)
Theorem join_derivation_ignores_stored_aliases (cols : list Selectable) (w1 w2 : World) :
  (_get_joins cols w1).1 = (_get_joins cols w2).1
  ∧ (∀ joins w', _get_joins cols w1 = (inr joins, w') →
       query w' = query w1
       ∧ ∃ w'', _get_joins cols w' = (inr joins, w''))
  ∧ ∃ w', _get_joins cols w1 = (inr (fromkeys (raw_joins cols)), w').
Proof.
  destruct (_get_joins_closed cols w1) as (w1' & H1 & Hq1).
  destruct (_get_joins_closed cols w2) as (w2' & H2 & Hq2).
  split_and!.
  - by rewrite H1, H2.
  - intros joins w' Hrun. rewrite H1 in Hrun. injection Hrun as <- <-.
    split; [done|]. destruct (_get_joins_closed cols w1') as (w'' & H3 & _). eauto.
  - eauto.
Qed.

Lemma column_joins_without_chain (column : Column) (w : World) :
  call_chain column = [] → column_joins column w = (inr [], w).
Proof. intros Hc. unfold column_joins. by rewrite Hc. Qed.

Lemma map_eff_without_chains (l : list Selectable) (w : World) :
  Forall (λ i, match i with SelColumn c => call_chain c = [] | _ => True end) l →
  ∃ joins,
    map_eff (λ column, match column with
                       | SelColumn c => column_joins c
                       | _ => ret []
                       end) l w = (inr joins, w)
    ∧ concat joins = [].
Proof.
  induction 1 as [|i l Hi _ (joins & IH & Hnil)]; [by exists []|].
  exists ([] :: joins). split; [|done].
  simpl. unfold bind at 1.
  assert (Hstep : match i with
                  | SelColumn c => column_joins c
                  | _ => ret []
                  end w = (inr [], w)).
  { destruct i; try done. by apply column_joins_without_chain. }
  rewrite Hstep. cbv beta iota. unfold bind at 1. by rewrite IH.
Qed.

(** X3. For columns without call chains (plain columns of the table,
    aggregates, raw SQL, readables over plain columns) [_get_joins] returns
    no fragment and writes no alias. *)
Theorem no_call_chain_no_join (cols : list Selectable) (w : World) :
  without_call_chains cols → _get_joins cols w = (inr [], w).
Proof.
  intros Hcols. unfold _get_joins.
  destruct (map_eff_without_chains
              (cols ++ concat (readable_columns_of <$> cols))%list w)
    as (joins & Hrun & Hnil).
  { apply Forall_app. split.
    - eapply Forall_impl; [exact Hcols|]. by intros [].
    - apply Forall_concat, Forall_fmap.
      eapply Forall_impl; [exact Hcols|]. intros [] Hi; simpl; try done.
      by apply Forall_fmap. }
  unfold bind. rewrite Hrun. unfold ret. by rewrite Hnil.
Qed.

(** ** Removing duplicates composes *)

Lemma fromkeys_app (a b : list string) :
  fromkeys (a ++ b) = (fromkeys a ++ filter (λ y, y ∉ fromkeys a) (fromkeys b))%list.
Proof. unfold fromkeys at 1. rewrite foldl_app. apply foldl_fromkeys_step. Qed.

Lemma filter_all {A} (P : A → Prop) `{∀ x, Decision (P x)} (l : list A) :
  Forall P l → filter P l = l.
Proof.
  induction 1 as [|x l Hx _ IH]; [done|]. by rewrite filter_cons_True, IH.
Qed.

Lemma fromkeys_NoDup_id (l : list string) : NoDup l → fromkeys l = l.
Proof.
  induction 1 as [|x l Hx _ IH]; [done|].
  rewrite fromkeys_cons, IH. f_equal.
  apply filter_all, Forall_forall. by intros y Hy ->.
Qed.

Lemma fromkeys_idem (l : list string) : fromkeys (fromkeys l) = fromkeys l.
Proof. apply fromkeys_NoDup_id, fromkeys_NoDup. Qed.

Lemma fromkeys_app_l (a b : list string) :
  fromkeys (fromkeys a ++ b) = fromkeys (a ++ b).
Proof. by rewrite !fromkeys_app, fromkeys_idem. Qed.

Lemma fromkeys_app_r (a b : list string) :
  fromkeys (a ++ fromkeys b) = fromkeys (a ++ b).
Proof. by rewrite !fromkeys_app, fromkeys_idem. Qed.

Lemma combined_joins_closed (w : World) :
  _check_valid_call_chain (selected_columns (query w)) = inr true →
  ∃ w',
    combined_joins w
    = (inr (fromkeys (raw_joins (selected_columns (query w))
                      ++ raw_joins (get_where_columns (query w))
                      ++ raw_joins (get_order_by_columns (query w)))), w')
    ∧ query w' = query w.
Proof.
  intros Hcheck.
  destruct (_get_joins_closed (selected_columns (query w)) w) as (w1 & Hs & Hq1).
  destruct (_get_joins_closed (get_where_columns (query w)) w1) as (w2 & Hw & Hq2).
  destruct (_get_joins_closed (get_order_by_columns (query w)) w2) as (w3 & Ho & Hq3).
  exists w3. split; [|congruence].
  unfold combined_joins, bind, get, lift, ret. rewrite Hcheck, Hs, Hw, Ho.
  do 2 f_equal.
  rewrite fromkeys_app_l. rewrite (fromkeys_app (raw_joins _)).
  rewrite fromkeys_app_l, fromkeys_app_r. by rewrite <- fromkeys_app.
Qed.

(** X4. The joins of a build are the fragments of the selected, the WHERE
    and the ORDER BY columns, in that order, each kept at its first
    occurrence: removing duplicates once per clause and once more over the
    three lists is the same as removing them once over all fragments. The
    list does not depend on the aliases stored on the key objects, so a
    rebuild of the same selection derives the same joins. *)
Theorem build_joins_closed_form (w : World) :
  _check_valid_call_chain (selected_columns (query w)) = inr true →
  ∃ w',
    combined_joins w
    = (inr (fromkeys (raw_joins (selected_columns (query w))
                      ++ raw_joins (get_where_columns (query w))
                      ++ raw_joins (get_order_by_columns (query w)))), w')
    ∧ query w' = query w.
Proof. apply combined_joins_closed. Qed.

(** ** What a build does to the query and what it returns *)

Lemma set_selected_columns_same (q : Select) :
  set_selected_columns (selected_columns q) q = q.
Proof. by destruct q. Qed.

Lemma remove_secret_columns_none (cols : list Selectable) :
  Forall (λ i, is_secret i = false) cols → remove_secret_columns cols = cols.
Proof. apply filter_all. Qed.

Lemma expand_selection_keeps_explicit `{Collaborators} (q : Select) :
  selected_columns q ≠ [] →
  exclude_secrets q = false ∨ Forall (λ i, is_secret i = false) (selected_columns q) →
  expand_selection q = q.
Proof.
  intros Hne Hsecret. unfold expand_selection.
  rewrite decide_False by (by destruct (selected_columns q)).
  destruct (exclude_secrets q) eqn:E; [|done].
  destruct Hsecret as [?|Hs]; [done|].
  rewrite remove_secret_columns_none by done. apply set_selected_columns_same.
Qed.

Lemma build_outcome `{Collaborators} (w : World) (r : Result (list QueryString))
    (w' : World) :
  default_querystrings w = (r, w') →
  (∃ e, r = inl e ∧ w' = w
        ∧ _check_valid_call_chain (selected_columns (query w)) = inl e)
  ∨ (∃ joins w1,
       _check_valid_call_chain (selected_columns (query w)) = inr true
       ∧ combined_joins w = (inr joins, w1)
       ∧ query w1 = query w
       ∧ r = assemble (expand_selection (query w)) joins
       ∧ w' = set_query (expand_selection (query w)) w1).
Proof.
  intros Hb.
  destruct (_check_valid_call_chain_cases (selected_columns (query w)))
    as [[Hc _]|[Hc _]].
  - right. destruct (default_querystrings_returns w Hc) as (j & w1 & Hj & Hq & Hb').
    rewrite Hb' in Hb. injection Hb as <- <-. by exists j, w1.
  - left. rewrite (default_querystrings_raises w _ Hc) in Hb.
    injection Hb as <- <-. by eexists.
Qed.

(** X5. Whatever its outcome, a build changes nothing of the query but the
    selection, and it leaves an explicit selection as it is unless secret
    columns are to be excluded; after a build that got past the call-chain
    check with [exclude_secrets], no secret column is left in it. *)
Theorem build_changes_only_the_selection `{Collaborators} (w : World)
    (r : Result (list QueryString)) (w' : World) :
  default_querystrings w = (r, w') →
  (∃ cols, query w' = set_selected_columns cols (query w))
  ∧ (selected_columns (query w) ≠ [] → exclude_secrets (query w) = false →
     query w' = query w)
  ∧ (exclude_secrets (query w) = true →
     _check_valid_call_chain (selected_columns (query w)) = inr true →
     ∀ c, SelColumn c ∈ selected_columns (query w') → secret c = false).
Proof.
  intros Hb.
  destruct (build_outcome w r w' Hb)
    as [(e & -> & -> & Hc)|(j & w1 & Hc & Hj & Hq & -> & ->)]; split_and!.
  - exists (selected_columns (query w)). by rewrite set_selected_columns_same.
  - done.
  - intros _ Hc'. congruence.
  - simpl. apply expand_selection_frame.
  - intros Hne Hex. simpl. apply expand_selection_keeps_explicit; [done|by left].
  - intros Hex _ c. simpl. unfold expand_selection.
    destruct (decide _); simpl; rewrite Hex; simpl;
      intros Hin; by apply list_elem_of_filter in Hin as [Hs _].
Qed.

Lemma add_optional_args {A} (o : option A) (text : string) (render : A → QueryString)
    (qa : string * list QueryString) :
  (add_optional o text render qa).2 = (qa.2 ++ clause_arg o render)%list.
Proof. destruct o; simpl; [done|by rewrite app_nil_r]. Qed.

Lemma add_optional_closed {A} (o : option A) (text : string) (render : A → QueryString)
    (qa : string * list QueryString) :
  add_optional o text render qa
  = (qa.1 +:+ clause_text o text, (qa.2 ++ clause_arg o render)%list).
Proof. destruct o, qa; simpl; [done|]. by rewrite append_nil_r, app_nil_r. Qed.

(** X6. The shape of a built query string: its template is SELECT with the
    placeholder of DISTINCT, the select strings joined by commas, FROM and
    the table, the joins, and then one placeholder for each clause that is
    set, in the order AS OF, WHERE, GROUP BY, ORDER BY, LIMIT, OFFSET; its
    arguments are the rendering of DISTINCT and of those clauses, in the
    same order. A clause that is not set adds neither text nor argument. *)
Theorem built_query_string_shape `{Collaborators} (q : Select) (joins : list string)
    (querystrings : list QueryString) :
  assemble q joins = inr querystrings →
  querystrings
  = [QS (("SELECT{}" +:+ " "
          +:+ String.concat ", "
                (get_select_string (engine_type (table q)) <$> selected_columns q)
          +:+ " FROM " +:+ formatted_tablename (table q))
         +:+ joins_text joins
         +:+ clause_text (_as_of q) "{}"
         +:+ clause_text (_where q) " WHERE {}"
         +:+ clause_text (_group_by q) "{}"
         +:+ clause_text (order_by_clause q) "{}"
         +:+ clause_text (_limit q) "{}"
         +:+ clause_text (_offset q) "{}")
        (Distinct_querystring (_distinct q)
         :: clause_arg (_as_of q) as_of_querystring
         ++ clause_arg (_where q) where_querystring
         ++ clause_arg (_group_by q) group_by_querystring
         ++ clause_arg (order_by_clause q) order_by_querystring
         ++ clause_arg (_limit q) Limit_querystring
         ++ clause_arg (_offset q) Offset_querystring)].
Proof.
  unfold assemble. destruct (if truthy_seq _ then _ else _); [done|]. simpl.
  destruct (_ && _ && _); [done|]. intros [= <-].
  assert (Horder : ∀ qa : string * list QueryString,
            (if bool_decide (order_by_items (_order_by q) ≠ [])
             then add_arg (order_by_querystring (_order_by q)) qa
             else qa)
            = (qa.1 +:+ clause_text (order_by_clause q) "{}",
               (qa.2 ++ clause_arg (order_by_clause q) order_by_querystring)%list)).
  { intros [query args]. unfold order_by_clause, add_arg.
    case_bool_decide; simpl; [done|]. by rewrite append_nil_r, app_nil_r. }
  rewrite Horder, !add_optional_closed, foldl_add_text. cbn [fst snd add_text add_arg].
  do 2 f_equal.
  - rewrite !append_assoc. reflexivity.
  - rewrite <- !app_assoc. reflexivity.
Qed.

(** X7. Building twice gives the same query strings: for an explicit
    selection from which no secret column is to be removed, a build leaves
    the query as it was, and a second build returns what the first one
    returned, error or query strings. *)
Theorem rebuild_returns_the_same `{Collaborators} (w : World)
    (r : Result (list QueryString)) (w' : World) :
  selected_columns (query w) ≠ [] →
  exclude_secrets (query w) = false
  ∨ Forall (λ i, is_secret i = false) (selected_columns (query w)) →
  default_querystrings w = (r, w') →
  query w' = query w ∧ ∃ w'', default_querystrings w' = (r, w'').
Proof.
  intros Hne Hsecret Hb.
  pose proof (expand_selection_keeps_explicit (query w) Hne Hsecret) as Hexp.
  destruct (build_outcome w r w' Hb)
    as [(e & -> & -> & Hc)|(j & w1 & Hc & Hj & Hq & -> & ->)].
  - split; [done|]. by exists w.
  - assert (Hq' : query (set_query (expand_selection (query w)) w1) = query w)
      by (simpl; exact Hexp).
    split; [exact Hq'|].
    set (w2 := set_query (expand_selection (query w)) w1) in *.
    assert (Hc2 : _check_valid_call_chain (selected_columns (query w2)) = inr true)
      by (by rewrite Hq').
    destruct (default_querystrings_returns w2 Hc2) as (j2 & w3 & Hj2 & _ & Hb2).
    destruct (combined_joins_closed w Hc) as (? & Hj' & _).
    destruct (combined_joins_closed w2 Hc2) as (? & Hj2' & _).
    rewrite Hj in Hj'. rewrite Hj2 in Hj2'. rewrite Hq' in Hj2'.
    injection Hj' as -> _. injection Hj2' as -> _.
    rewrite Hb2, Hq'. eauto.
Qed.

Lemma remove_secret_columns_all (cols : list Selectable) :
  Forall (λ i, is_secret i = true) cols → remove_secret_columns cols = [].
Proof.
  unfold remove_secret_columns.
  induction 1 as [|i l Hi _ IH]; [done|].
  rewrite filter_cons_False; [done|]. by rewrite Hi.
Qed.

Lemma expand_empty_selection `{Collaborators} (q : Select) :
  selected_columns q = [] → exclude_secrets q = true →
  selected_columns (expand_selection q)
  = remove_secret_columns (SelColumn <$> columns (table q)).
Proof.
  intros Hsel Hex. unfold expand_selection. rewrite Hsel. simpl. by rewrite Hex.
Qed.

(** X8. With [exclude_secrets], a selection made of secret columns only is
    emptied by the build; the next build then takes the query for a
    select-all and selects the columns of the table that are not secret. *)
Theorem secret_only_selection_becomes_select_all `{Collaborators} (w : World)
    (r : Result (list QueryString)) (w' : World) :
  exclude_secrets (query w) = true →
  selected_columns (query w) ≠ [] →
  Forall (λ i, is_secret i = true) (selected_columns (query w)) →
  _check_valid_call_chain (selected_columns (query w)) = inr true →
  default_querystrings w = (r, w') →
  selected_columns (query w') = []
  ∧ ∀ r2 w'', default_querystrings w' = (r2, w'') →
      selected_columns (query w'')
      = remove_secret_columns (SelColumn <$> columns (table (query w))).
Proof.
  intros Hex Hne Hsecret Hc Hb.
  destruct (build_outcome w r w' Hb)
    as [(e & _ & _ & Hc')|(j & w1 & _ & Hj & Hq & -> & ->)]; [congruence|].
  assert (Hempty : selected_columns (expand_selection (query w)) = []).
  { unfold expand_selection.
    rewrite decide_False by (by destruct (selected_columns (query w))).
    rewrite Hex. simpl. by apply remove_secret_columns_all. }
  split; [exact Hempty|].
  intros r2 w'' Hb2. set (w2 := set_query (expand_selection (query w)) w1) in *.
  destruct (expand_selection_frame (query w)) as [cols Hframe].
  assert (Hsel2 : selected_columns (query w2) = []) by exact Hempty.
  destruct (build_outcome w2 r2 w'' Hb2)
    as [(e & _ & _ & Hc')|(j2 & w3 & _ & _ & _ & _ & ->)].
  { rewrite Hsel2 in Hc'. done. }
  assert (Hq2 : query w2 = set_selected_columns cols (query w))
    by (by rewrite <- Hframe).
  change (selected_columns (expand_selection (query w2))
          = remove_secret_columns (SelColumn <$> columns (table (query w)))).
  rewrite expand_empty_selection; [by rewrite Hq2|done|by rewrite Hq2].
Qed.

(** ** The response handler *)

Section HandlerProperties.
Context `{Collaborators}.

Lemma convert_rows_cons (name : string) (value_type : PyType) (row : Row)
    (rest : list Row) :
  convert_rows name value_type (row :: rest)
  = match convert_row name value_type row with
    | inl (ValueError _) => inr (row :: rest)
    | inl e => inl e
    | inr row' => rbind (convert_rows name value_type rest) (λ rest', inr (row' :: rest'))
    end.
Proof. reflexivity. Qed.

(** X9. The type conversion of the SQLite branch never lets a [ValueError]
    out: the rows before the one whose conversion fails are converted, that
    row and the rows after it are left as they came, and the handler goes
    on with this partly converted response. *)
Theorem sqlite_conversion_stops_at_value_error (name : string) (value_type : PyType)
    (response : list Row) :
  (∀ msg, convert_rows name value_type response ≠ inl (ValueError msg))
  ∧ ∀ response', convert_rows name value_type response = inr response' →
      ∃ n converted,
        Forall2 (λ row row', convert_row name value_type row = inr row')
                (take n response) converted
        ∧ response' = (converted ++ drop n response)%list
        ∧ ((n < length response)%nat →
           ∃ row msg, response !! n = Some row
                      ∧ convert_row name value_type row = inl (ValueError msg)).
Proof.
  induction response as [|row rest [IHraise IHret]].
  - split; [done|]. intros ? [= <-]. exists 0%nat, []. split_and!; [constructor|done|].
    simpl. lia.
  - rewrite convert_rows_cons.
    destruct (convert_row name value_type row) as [e|row'] eqn:Hrow.
    + split.
      * intros msg. by destruct e.
      * intros response' Hrun.
        assert (∃ msg, e = ValueError msg) as [msg ->] by (destruct e; eauto; done).
        injection Hrun as <-. exists 0%nat, []. split_and!; [constructor|done|].
        intros _. exists row, msg. done.
    + destruct (convert_rows name value_type rest) as [e|rest'] eqn:Hrest; simpl.
      * split; [|done]. intros msg [= ->]. by apply (IHraise msg).
      * split; [done|]. intros response' [= <-].
        destruct (IHret rest' eq_refl) as (n & converted & Hconv & -> & Hstop).
        exists (S n), (row' :: converted). split_and!.
        -- simpl. by constructor.
        -- done.
        -- simpl. intros Hn. apply Hstop. lia.
Qed.

Lemma convert_rows_length (name : string) (value_type : PyType)
    (response response' : list Row) :
  convert_rows name value_type response = inr response' →
  length response' = length response.
Proof.
  revert response'. induction response as [|row rest IH]; intros response'.
  - by intros [= <-].
  - rewrite convert_rows_cons.
    destruct (convert_row name value_type row) as [e|row'].
    + destruct e; try done. by intros [= <-].
    + destruct (convert_rows name value_type rest) as [e|rest']; simpl; [done|].
      intros [= <-]. simpl. f_equal. by apply IH.
Qed.

Lemma map_result_length {A B} (f : A → Result B) (xs : list A) (ys : list B) :
  map_result f xs = inr ys → length ys = length xs.
Proof. intros Hm. apply map_result_Forall2 in Hm. symmetry. by eapply Forall2_length. Qed.

Lemma update_rows_length (name : string) (f : Value → Result Value)
    (response response' : list Row) :
  update_rows name f response = inr response' → length response' = length response.
Proof. apply map_result_length. Qed.

Lemma _splice_m2m_rows_length (response response' : list Row) (name : string)
    (m : M2MSelect) (as_list : bool) :
  _splice_m2m_rows response name m as_list = inr response' →
  length response' = length response.
Proof.
  unfold _splice_m2m_rows. intros Hrun.
  destruct (map_result (row_identifiers name) response); simpl in Hrun; [done|].
  destruct (map_result as_key _); simpl in Hrun; [done|].
  destruct (if bool_decide _ then _ else _); simpl in Hrun; [done|].
  destruct (if as_list then _ else _); simpl in Hrun; [done|].
  by eapply map_result_length.
Qed.

Lemma handle_m2m_select_length (self : Select) (response response' : list Row)
    (m : M2MSelect) :
  handle_m2m_select self response m = inr response' →
  length response' = length response.
Proof.
  unfold handle_m2m_select. destruct (engine_type (table self)).
  - destruct (if m2m_as_list m && m2m_serialisation_safe m then _ else _)
      as [?|vt]; simpl; [done|].
    destruct (convert_rows (m2m_name m) vt response) as [?|converted] eqn:Hconv;
      simpl; [done|].
    apply convert_rows_length in Hconv. rewrite <- Hconv.
    destruct (m2m_as_list m).
    + destruct (m2m_serialisation_safe m); [by intros [= <-]|].
      apply _splice_m2m_rows_length.
    + destruct (_ && _).
      * destruct (m2m_columns m); [done|]. apply update_rows_length.
      * apply _splice_m2m_rows_length.
  - destruct (m2m_as_list m).
    + destruct (m2m_columns m) as [|c cols]; [done|].
      destruct (_ && _); [apply update_rows_length|by intros [= <-]].
    + destruct (m2m_serialisation_safe m);
        [apply update_rows_length|apply _splice_m2m_rows_length].
  - destruct (m2m_as_list m).
    + destruct (m2m_columns m) as [|c cols]; [done|].
      destruct (_ && _); [apply update_rows_length|by intros [= <-]].
    + destruct (m2m_serialisation_safe m);
        [apply update_rows_length|apply _splice_m2m_rows_length].
Qed.

Lemma normalise_timestamps_length (self : Select) (response : list Row) :
  length (normalise_timestamps self response) = length response.
Proof.
  unfold normalise_timestamps. generalize (timestamptz_columns self). intros cols.
  revert response. induction cols as [|[alias tz] cols IH]; intros response; [done|].
  simpl. rewrite IH. destruct (decide (tz = "UTC")); [done|]. by rewrite length_fmap.
Qed.

(** X10. The response handler returns as many rows as it is given, in every
    dialect and for every selection: many-to-many handling, timezone
    correction and nesting all work row by row. *)
Theorem response_handler_keeps_row_count (self : Select) (response response' : list Row) :
  response_handler self response = inr response' →
  length response' = length response.
Proof.
  unfold response_handler.
  assert (Hfold : ∀ ms acc rows,
            foldl (λ acc m2m_select,
                     rbind acc (λ response, handle_m2m_select self response m2m_select))
                  acc ms = inr rows →
            ∃ rows0, acc = inr rows0 ∧ length rows = length rows0).
  { induction ms as [|m ms IH]; intros acc rows Hrun.
    - exists rows. simpl in Hrun. by subst.
    - simpl in Hrun. destruct (IH _ _ Hrun) as (rows1 & Hstep & Hlen).
      destruct acc as [e|rows0]; [done|]. simpl in Hstep.
      exists rows0. split; [done|].
      rewrite Hlen. by eapply handle_m2m_select_length. }
  destruct (foldl _ _ _) as [e|rows] eqn:Hm2m; simpl; [done|].
  destruct (Hfold _ _ _ Hm2m) as (rows0 & [= <-] & Hlen).
  destruct (_ && _); intros [= <-];
    by rewrite ?length_fmap, normalise_timestamps_length.
Qed.
(** *** Timezone correction *)

Lemma dict_get_set_ne (k k' : string) (v : Value) (d : Row) :
  k ≠ k' → dict_get k' (dict_set k v d) = dict_get k' d.
Proof.
  intros Hne. induction d as [|[k0 v0] d IH]; simpl.
  - by rewrite decide_False.
  - destruct (decide (k0 = k)) as [->|Hk]; simpl.
    + by rewrite !decide_False.
    + by rewrite IH.
Qed.

Lemma attach_timezone_not_naive (alias tz : string) (row : Row) :
  ¬ naive_at alias (attach_timezone alias tz row).
Proof.
  intros [t Ht]. unfold attach_timezone in Ht.
  destruct (dict_get alias row) as [[[| | |t' [tz'|]]| |]|] eqn:Hget;
    rewrite ?dict_get_set_eq in Ht; congruence.
Qed.

Lemma attach_timezone_id (alias tz : string) (row : Row) :
  ¬ naive_at alias row → attach_timezone alias tz row = row.
Proof.
  intros Hn. unfold attach_timezone.
  destruct (dict_get alias row) as [[[| | |t [tz'|]]| |]|] eqn:Hget; try done.
  destruct Hn. by exists t.
Qed.

Lemma attach_timezone_keeps_aware (a b tz : string) (row : Row) :
  ¬ naive_at a row → ¬ naive_at a (attach_timezone b tz row).
Proof.
  intros Hn. destruct (decide (b = a)) as [->|Hne].
  - apply attach_timezone_not_naive.
  - intros [t Ht]. apply Hn. exists t. unfold attach_timezone in Ht.
    destruct (dict_get b row) as [[[| | |t' [tz'|]]| |]|]; try done.
    by rewrite dict_get_set_ne in Ht.
Qed.

Lemma attach_timezone_rows_id (alias tz : string) (rows : list Row) :
  Forall (λ row, ¬ naive_at alias row) rows → attach_timezone alias tz <$> rows = rows.
Proof.
  induction 1 as [|row rows Hrow _ IH]; [done|].
  by rewrite fmap_cons, IH, attach_timezone_id.
Qed.

(** One round of the loop over the timestamptz columns. *)
Lemma normalise_step_aware (cols : list (string * string)) (response : list Row)
    (alias tz : string) :
  (alias, tz) ∈ cols → tz ≠ "UTC" →
  Forall (λ row, ¬ naive_at alias row)
         (foldl (λ response '(alias, tz),
                   if decide (tz = "UTC") then response
                   else attach_timezone alias tz <$> response)
                response cols).
Proof.
  revert response. induction cols as [|[a z] cols IH] using rev_ind; intros response Hin Hz.
  - by apply elem_of_nil in Hin.
  - rewrite foldl_snoc. apply elem_of_app in Hin as [Hin|Hin].
    + specialize (IH response Hin Hz). destruct (decide (z = "UTC")); [done|].
      apply Forall_fmap. eapply Forall_impl; [exact IH|].
      intros row Hrow. by apply attach_timezone_keeps_aware.
    + apply list_elem_of_singleton in Hin. injection Hin as <- <-.
      rewrite decide_False by done. apply Forall_fmap, Forall_forall.
      intros row _. apply attach_timezone_not_naive.
Qed.

Lemma normalise_fold_id (cols : list (string * string)) (response : list Row) :
  (∀ alias tz, (alias, tz) ∈ cols → tz ≠ "UTC" →
     Forall (λ row, ¬ naive_at alias row) response) →
  foldl (λ response '(alias, tz),
           if decide (tz = "UTC") then response
           else attach_timezone alias tz <$> response)
        response cols = response.
Proof.
  induction cols as [|[a z] cols IH]; intros Haware; [done|].
  simpl. destruct (decide (z = "UTC")) as [Hz|Hz].
  - apply IH. intros alias tz Hin. apply Haware. by right.
  - rewrite attach_timezone_rows_id by (apply (Haware a z); [left|done]).
    apply IH. intros alias tz Hin. apply Haware. by right.
Qed.

(** X11. Timezone correction is idempotent: after one pass no row has a
    naive datetime left under the alias of a timestamptz column that is
    not in UTC, and a second pass changes nothing. When every timestamptz
    column is in UTC the pass is the identity. *)
Theorem timezone_correction_idempotent (self : Select) (response : list Row) :
  normalise_timestamps self (normalise_timestamps self response)
  = normalise_timestamps self response
  ∧ (∀ alias tz, (alias, tz) ∈ timestamptz_columns self → tz ≠ "UTC" →
       Forall (λ row, ¬ naive_at alias row) (normalise_timestamps self response))
  ∧ ((∀ alias tz, (alias, tz) ∈ timestamptz_columns self → tz = "UTC") →
     normalise_timestamps self response = response).
Proof.
  split_and!.
  - apply normalise_fold_id. intros alias tz Hin Hz.
    by apply (normalise_step_aware _ _ alias tz).
  - intros alias tz Hin Hz. by apply (normalise_step_aware _ _ alias tz).
  - intros Hutc. apply normalise_fold_id. intros alias tz Hin Hz.
    by destruct (Hz (Hutc alias tz Hin)).
Qed.
(** *** Splicing *)

Lemma dict_set_keys (k : string) (v v0 : Value) (d : Row) :
  dict_get k d = Some v0 → dict_keys (dict_set k v d) = dict_keys d.
Proof.
  unfold dict_keys. induction d as [|[k' v'] d IH]; simpl; [done|].
  destruct (decide (k' = k)) as [->|Hne]; simpl; [done|].
  intros Hget. f_equal. by apply IH.
Qed.

Lemma dict_set_same (k : string) (v : Value) (d : Row) :
  dict_get k d = Some v → dict_set k v d = d.
Proof.
  induction d as [|[k' v'] d IH]; simpl; [done|].
  destruct (decide (k' = k)) as [->|Hne]; [by intros [= ->]|].
  intros Hget. by rewrite IH.
Qed.

(** X12. Splicing rewrites the entry of the relation and nothing else: in
    every row the keys keep their order and every other key keeps its
    value. *)
Theorem splice_touches_only_the_relation (response response' : list Row)
    (m2m_name : string) (m2m_select : M2MSelect) (as_list : bool) :
  _splice_m2m_rows response m2m_name m2m_select as_list = inr response' →
  Forall2 (λ row row',
             dict_keys row' = dict_keys row
             ∧ ∀ k, k ≠ m2m_name → dict_get k row' = dict_get k row)
          response response'.
Proof.
  unfold _splice_m2m_rows. intros Hrun.
  destruct (map_result (row_identifiers m2m_name) response); simpl in Hrun; [done|].
  destruct (map_result as_key _); simpl in Hrun; [done|].
  destruct (if bool_decide _ then _ else _); simpl in Hrun; [done|].
  destruct (if as_list then _ else _) as [?|m]; simpl in Hrun; [done|].
  apply map_result_Forall2 in Hrun.
  eapply Forall2_impl; [exact Hrun|]. intros row row' Hrow. simpl in Hrow.
  unfold row_identifiers, subscript in Hrow.
  destruct (dict_get m2m_name row) as [data|] eqn:Hget; simpl in Hrow; [|done].
  destruct (iter_value data); simpl in Hrow; [done|].
  destruct (map_result (map_get m) _); simpl in Hrow; [done|].
  injection Hrow as <-. split.
  - by eapply dict_set_keys.
  - intros k Hk. by apply dict_get_set_ne.
Qed.

Lemma map_result_fmap {A B} (f : A → Result B) (g : A → B) (xs : list A) :
  Forall (λ x, f x = inr (g x)) xs → map_result f xs = inr (g <$> xs).
Proof.
  induction 1 as [|x xs Hx _ IH]; [done|]. simpl. by rewrite Hx, IH.
Qed.

(** X13. When no row refers to any identifier (in particular for an empty
    response), splicing does not ask the secondary table: whatever the
    auxiliary query would return or raise, the rows come back as they
    are. *)
Theorem splice_without_identifiers (response : list Row) (m2m_name : string)
    (m2m_select : M2MSelect) (as_list : bool) :
  Forall (λ row, dict_get m2m_name row = Some (VList [])) response →
  (as_list = true → m2m_columns m2m_select ≠ []) →
  _splice_m2m_rows response m2m_name m2m_select as_list = inr response.
Proof.
  intros Hrows Hcolumns. unfold _splice_m2m_rows.
  rewrite (map_result_fmap (row_identifiers m2m_name) (λ _, [])).
  2:{ eapply Forall_impl; [exact Hrows|]. intros row Hget.
      unfold row_identifiers, subscript. by rewrite Hget. }
  cbn [rbind].
  assert (Hnone : concat ((λ _ : Row, @nil Value) <$> response) = []).
  { clear. induction response as [|row rows IH]; [done|]. by rewrite fmap_cons. }
  rewrite Hnone. cbn [map_result rbind].
  change (list_to_set [] : gset Atom) with (∅ : gset Atom). rewrite elements_empty.
  rewrite bool_decide_eq_false_2 by (by intros ?). cbn [rbind].
  assert (Hrest : map_result
                    (λ row, rbind (row_identifiers m2m_name row) (λ ids,
                            rbind (map_result (map_get (∅ : gmap Atom Value)) ids)
                                  (λ values,
                            inr (dict_set m2m_name (VList values) row))))
                    response = inr response).
  { rewrite (map_result_fmap _ id); [by rewrite list_fmap_id|].
    eapply Forall_impl; [exact Hrows|]. intros row Hget.
    unfold row_identifiers, subscript. rewrite Hget. simpl.
    by rewrite dict_set_same. }
  destruct as_list.
  - destruct (m2m_columns m2m_select); [by destruct Hcolumns|]. exact Hrest.
  - exact Hrest.
Qed.

Lemma mapping_step_keeps (value : Row → Result Value) (rows : list Row)
    (m0 m : gmap Atom Value) (k : Atom) :
  foldl (mapping_step value) (inr m0) rows = inr m →
  (∀ row, row ∈ rows → dict_get "mapping_key" row ≠ Some (VAtom k)) →
  m !! k = m0 !! k.
Proof.
  revert m0. induction rows as [|row rows IH]; intros m0 Hfold Hrows.
  - simpl in Hfold. congruence.
  - change (foldl (mapping_step value) (mapping_step value (inr m0) row) rows
            = inr m) in Hfold.
    destruct (mapping_step value (inr m0) row) as [e|m1] eqn:Hstep.
    { by rewrite mapping_step_raised in Hfold. }
    apply mapping_step_inv in Hstep as (a & v & Hkey & ->).
    rewrite (IH (<[a := v]> m0)); [|done|].
    + apply lookup_insert_ne. intros ->. by apply (Hrows row); [left|].
    + intros r Hr. apply Hrows. by right.
Qed.

(** X14. The mapping built from the secondary rows holds, for a mapping
    key, the value of the last row that has it: a later row replaces an
    earlier one with the same key. *)
Theorem mapping_holds_the_last_row (value : Row → Result Value)
    (before after : list Row) (row : Row) (m : gmap Atom Value) (k : Atom)
    (v : Value) :
  mapping_of value (before ++ row :: after) = inr m →
  dict_get "mapping_key" row = Some (VAtom k) →
  value row = inr v →
  (∀ r, r ∈ after → dict_get "mapping_key" r ≠ Some (VAtom k)) →
  m !! k = Some v.
Proof.
  unfold mapping_of. rewrite foldl_app. intros Hfold Hkey Hv Hafter.
  destruct (foldl (mapping_step value) (inr ∅) before) as [e|m1].
  { simpl in Hfold. by rewrite mapping_step_raised in Hfold. }
  change (foldl (mapping_step value) (mapping_step value (inr m1) row) after
          = inr m) in Hfold.
  assert (Hstep : mapping_step value (inr m1) row = inr (<[k := v]> m1)).
  { unfold mapping_step, subscript. simpl. by rewrite Hkey, Hv. }
  rewrite Hstep in Hfold.
  rewrite (mapping_step_keeps _ _ _ _ k Hfold Hafter). apply lookup_insert_eq.
Qed.

(** *** The single-row view *)

(** X15. [First.run] runs the query without the callback pass and hands
    the callbacks one value: the first row, or [None] when no row matches;
    an error of the run goes through unchanged and no callback is
    invoked. *)
Theorem first_view (w : World) :
  (∀ rows w', Query_run w = (inr rows, w') →
     First_run w
     = (inr (invoke (query w') (match rows with
                                | [] => VNone
                                | row :: _ => VDict row
                                end)), w'))
  ∧ (∀ e w', Query_run w = (inl e, w') → First_run w = (inl e, w')).
Proof.
  split.
  - intros rows w' Hq. unfold First_run, bind at 1.
    rewrite (Select_run_returns _ false _ _ Hq). unfold rows_value.
    by destruct rows.
  - intros e w' Hq. unfold First_run, bind at 1.
    by rewrite (Select_run_raises _ false _ _ Hq).
Qed.
End HandlerProperties.

(** ** When a build returns *)

Section BuildProperties.
Context `{Collaborators}.

Lemma assemble_returns_iff (q : Select) (joins : list string) :
  (∃ querystring, assemble q joins = inr [querystring])
  ↔ distinct_on_accepted q ∧ ¬ sqlite_offset_without_limit q.
Proof.
  unfold assemble, distinct_on_accepted, sqlite_offset_without_limit.
  destruct (if truthy_seq _ then _ else _) as [e|[]]; simpl.
  { split; [by intros [? ?]|by intros [? _]]. }
  destruct (bool_decide (engine_type (table q) = sqlite)) eqn:He;
    destruct (bool_decide (is_Some (_offset q))) eqn:Ho;
    destruct (bool_decide (is_Some (_limit q))) eqn:Hl; simpl;
    try apply bool_decide_eq_true in He; try apply bool_decide_eq_false in He;
    try apply bool_decide_eq_true in Ho; try apply bool_decide_eq_false in Ho;
    try apply bool_decide_eq_true in Hl; try apply bool_decide_eq_false in Hl;
    (split; [intros [qs Hqs]|intros [_ Hn]]);
    try (split; [done|]; intros (? & ? & Hlim));
    try (by eexists); try done;
    try (rewrite Hlim in Hl; by destruct Hl).
  destruct Hn. split_and!; [done..|].
  destruct (_limit q) eqn:E; [|done]. destruct Hl. by eexists.
Qed.

Lemma assemble_errors (q : Select) (joins : list string) (e : Exception) :
  assemble q joins = inl e → ∃ msg, e = ValueError msg.
Proof.
  unfold assemble, validate_on.
  destruct (truthy_seq _); [case_bool_decide|]; simpl;
    try (destruct (_ && _ && _); [|done]); intros [= <-]; eauto.
Qed.

(** X16. A build returns query strings exactly when three guards pass: no
    selected column has more than ten links, the DISTINCT ON columns (if
    any) lead the ORDER BY columns, and the query is not an OFFSET without
    LIMIT on SQLite. It then returns one query string. The only errors it
    raises are the call-chain exception and [ValueError]. *)
Theorem build_returns_iff (w : World) :
  ((∃ querystring w', default_querystrings w = (inr [querystring], w'))
   ↔ _check_valid_call_chain (selected_columns (query w)) = inr true
     ∧ distinct_on_accepted (query w)
     ∧ ¬ sqlite_offset_without_limit (query w))
  ∧ (∀ querystrings w', default_querystrings w = (inr querystrings, w') →
       length querystrings = 1%nat)
  ∧ (∀ e w', default_querystrings w = (inl e, w') →
       e = CallChainError ∨ ∃ msg, e = ValueError msg).
Proof.
  assert (Hsame : ∀ joins,
            (∃ querystring, assemble (expand_selection (query w)) joins
                            = inr [querystring])
            ↔ distinct_on_accepted (query w)
              ∧ ¬ sqlite_offset_without_limit (query w)).
  { intros joins. rewrite assemble_returns_iff.
    destruct (expand_selection_frame (query w)) as [cols ->]. done. }
  split_and!.
  - split.
    + intros (querystring & w' & Hb).
      destruct (build_outcome w _ _ Hb) as [(e & ? & _)|(j & w1 & Hc & _ & _ & Ha & _)];
        [done|].
      split; [done|]. apply (Hsame j). eauto.
    + intros (Hc & Hd & Ho).
      destruct (default_querystrings_returns w Hc) as (j & w1 & _ & _ & ->).
      destruct (proj2 (Hsame j)) as [querystring ->]; eauto.
  - intros querystrings w' Hb.
    destruct (build_outcome w _ _ Hb) as [(e & ? & _)|(j & w1 & _ & _ & _ & Ha & _)];
      [done|].
    symmetry in Ha. destruct (assemble_template _ _ _ Ha) as (? & ? & ->). done.
  - intros e w' Hb.
    destruct (build_outcome w _ _ Hb) as [(e' & [= <-] & _ & Hc)|(j & w1 & _ & _ & _ & Ha & _)].
    + left. destruct (_check_valid_call_chain_cases (selected_columns (query w)))
        as [[Hc' _]|[Hc' _]]; congruence.
    + right. symmetry in Ha. by eapply assemble_errors.
Qed.

(** X17. On SQLite [distinct] refuses every [on], the empty sequence
    included, and leaves the query alone; so a query whose DISTINCT went
    through [distinct] has no DISTINCT ON columns on SQLite, passes that
    validation of the build, and builds as soon as its selected columns
    pass the call-chain check and its OFFSET, if any, comes with a LIMIT. *)
Theorem sqlite_distinct_never_reaches_validation (w : World)
    (on : option (list Column)) :
  engine_type (table (query w)) = sqlite →
  (is_Some on → ∃ msg, distinct on (query w) = inl (NotImplementedError msg))
  ∧ ∀ q', distinct on (query w) = inr q' →
      on = None
      ∧ distinct_on_accepted q'
      ∧ (_check_valid_call_chain (selected_columns (query w)) = inr true →
         (_offset (query w) = None ∨ is_Some (_limit (query w))) →
         ∃ querystring w', default_querystrings (set_query q' w)
                           = (inr [querystring], w')).
Proof.
  intros He. unfold distinct. rewrite He. split.
  - intros Hon. eexists. rewrite !bool_decide_eq_true_2 by done. reflexivity.
  - intros q'. destruct on as [on|].
    { rewrite !bool_decide_eq_true_2 by eauto. done. }
    rewrite (bool_decide_eq_false_2 (is_Some None)) by (by intros [? ?]).
    intros [= <-]. split_and!; [done..|].
    intros Hc Hpage.
    destruct (default_querystrings_returns
                (set_query (set_distinct {| distinct_enabled := true;
                                            distinct_on := None |} (query w)) w) Hc)
      as (j & w1 & _ & _ & ->).
    match goal with
    | |- context [assemble ?q j] =>
        destruct (proj2 (assemble_returns_iff q j)) as [querystring ->]
    end; [|eauto].
    match goal with
    | |- context [expand_selection ?q] =>
        destruct (expand_selection_frame q) as [cols ->]
    end.
    split; [done|]. intros (_ & Ho & Hl). simpl in Ho, Hl.
    destruct Hpage as [Hnone|[l Hsome]]; [|congruence].
    rewrite Hnone in Ho. by destruct Ho.
Qed.
End BuildProperties.

(** ** A plain query *)

(** X19. For a selection without many-to-many relation, whose timestamptz
    columns are all in UTC, and without nested output (or with an empty
    selection), the response handler returns the rows as they came. *)
Theorem plain_response_is_returned_as_is `{Collaborators} (self : Select)
    (response : list Row) :
  m2m_selects self = [] →
  (∀ alias tz, (alias, tz) ∈ timestamptz_columns self → tz = "UTC") →
  nested (_output self) = false ∨ selected_columns self = [] →
  response_handler self response = inr response.
Proof.
  intros Hm2m Hutc Hflat.
  assert (Hsame : normalise_timestamps self response = response).
  { apply normalise_fold_id. intros alias tz Hin Hz.
    by destruct (Hz (Hutc alias tz Hin)). }
  unfold response_handler. rewrite Hm2m. cbn [foldl rbind]. rewrite Hsame.
  destruct Hflat as [->|Hsel]; [done|].
  unfold was_select_star. rewrite Hsel. simpl. by rewrite andb_false_r.
Qed.

(** ** [Count] *)

(** X18. [Count] refuses a column together with a non-empty [distinct], and
    nothing else: an empty [distinct] counts as none. What is accepted
    renders one expression: the distinct columns (joined by [||] on SQLite
    and by commas elsewhere), else the column, else [*]. *)
Theorem count_takes_column_or_distinct `{Collaborators} (engine : EngineType)
    (column : option Column) (distinct : option (list Column)) (alias : string) :
  ((∃ msg, Count_init column distinct alias = inl (ValueError msg))
   ↔ is_Some column ∧ ∃ d ds, distinct = Some (d :: ds))
  ∧ ∀ self, Count_init column distinct alias = inr self →
      Count_get_select_string engine self
      = "COUNT("
        +:+ match distinct, column with
            | Some (d :: ds), _ =>
                "DISTINCT ("
                +:+ String.concat (if decide (engine = sqlite) then " || " else ", ")
                      (Column_get_full_name <$> d :: ds)
                +:+ ")"
            | _, Some c => Column_get_full_name c
            | _, None => "*"
            end
        +:+ ") AS " +:+ dquote +:+ alias +:+ dquote.
Proof.
  unfold Count_init, Count_get_select_string.
  destruct distinct as [[|d ds]|], column as [c|]; simpl; split;
    try (split; [by intros [? ?]|intros [[? ?] (? & ? & ?)]; done]);
    try (intros self [= <-]; simpl; by destruct (decide (engine = sqlite)));
    try done.
  split; [intros _; split; eauto|by eexists].
Qed.

(** * Nested output *)

Section NestedOutput.
Context `{Collaborators}.
Implicit Types (w : World) (q : Select).












End NestedOutput.




(** * The JSON view

    The codec reads back what it writes. *)

Lemma Value_nested_ind (P : Value → Prop) :
  (∀ a, P (VAtom a)) →
  (∀ l, Forall P l → P (VList l)) →
  (∀ d, Forall (λ kv, P kv.2) d → P (VDict d)) →
  ∀ v, P v.
Proof.
  intros Ha Hl Hd. fix IH 1. intros [a|l|d].
  - apply Ha.
  - apply Hl. induction l as [|x l IHl]; constructor; [apply IH|exact IHl].
  - apply Hd. induction d as [|[k x] d IHd]; constructor; [apply IH|exact IHd].
Qed.

Lemma chars_app (a b : string) : chars (a +:+ b) = (chars a ++ chars b)%list.
Proof.
  induction a as [|c a IH]; [done|].
  change (c :: chars (a +:+ b) = c :: (chars a ++ chars b)%list). by f_equal.
Qed.

Lemma concat_cons_cons (sep x y : string) (l : list string) :
  String.concat sep (x :: y :: l) = x +:+ sep +:+ String.concat sep (y :: l).
Proof. done. Qed.

Lemma is_char_code (n : nat) (c : Ascii.ascii) :
  (n < 256)%nat → is_char n c = bool_decide (Ascii.nat_of_ascii c = n).
Proof.
  intros Hn. unfold is_char. apply bool_decide_ext. split.
  - intros ->. by apply Ascii.nat_ascii_embedding.
  - intros <-. by rewrite Ascii.ascii_nat_embedding.
Qed.

Lemma digit_is_no_char (n : nat) (c : Ascii.ascii) (d : Z) :
  digit_value c = Some d → (n < 48 ∨ 57 < n)%nat → (n < 256)%nat →
  is_char n c = false.
Proof.
  unfold digit_value. case_bool_decide; [|done]. intros _ Hn Hlt.
  rewrite is_char_code by done. apply bool_decide_eq_false. lia.
Qed.

Lemma digit_value_pretty (d : N) :
  (d < 10)%N → digit_value (pretty_N_char (d)) = Some (Z.of_N d).
Proof.
  intros Hd.
  assert (d = 0 ∨ d = 1 ∨ d = 2 ∨ d = 3 ∨ d = 4 ∨ d = 5 ∨ d = 6 ∨ d = 7
          ∨ d = 8 ∨ d = 9)%N as Hcases by lia.
  repeat destruct Hcases as [->|Hcases]; try subst d; vm_compute; reflexivity.
Qed.

Lemma read_digits_end (acc : Z) (rest : list Ascii.ascii) :
  ends_number rest → read_digits acc rest = (acc, rest).
Proof. destruct rest as [|c rest]; simpl; [done|]. by intros ->. Qed.

Lemma read_digits_pretty (x : N) :
  ∃ k : Z, (0 ≤ k)%Z ∧ ∀ acc s rest,
    read_digits acc (chars (pretty_N_go x s) ++ rest)
    = read_digits (acc * 10 ^ k + Z.of_N x) (chars s ++ rest).
Proof.
  induction (N.lt_wf_0 x) as [x _ IH].
  assert (x = 0 ∨ 0 < x)%N as [->|Hpos] by lia.
  - exists 0%Z. split; [done|]. intros acc s rest. rewrite pretty_N_go_0.
    f_equal. simpl. lia.
  - destruct (IH (x `div` 10)%N) as (k & Hk & Hread); [by apply N.div_lt|].
    exists (Z.succ k). split; [lia|]. intros acc s rest.
    rewrite pretty_N_go_step by done. rewrite Hread.
    change (chars (String (pretty_N_char (x `mod` 10)) s) ++ rest)%list
      with (pretty_N_char (x `mod` 10) :: (chars s ++ rest))%list.
    cbn [read_digits]. rewrite digit_value_pretty by (by apply N.mod_lt).
    f_equal. rewrite Z.pow_succ_r by done.
    rewrite N2Z.inj_div, N2Z.inj_mod.
    assert (Hdm : Z.of_N x = (10 * (Z.of_N x `div` 10) + Z.of_N x `mod` 10)%Z)
      by (by apply Z.div_mod).
    change (Z.of_N 10) with 10%Z. generalize (10 ^ k)%Z. intros p.
    revert Hdm. generalize (Z.of_N x `div` 10)%Z. intros q.
    generalize (Z.of_N x `mod` 10)%Z. intros r. intros ->. ring.
Qed.

(** The text of a positive number starts with a digit. *)
Lemma pretty_N_go_head (x : N) (s : string) :
  (0 < x)%N →
  ∃ c tl d, chars (pretty_N_go x s) = c :: tl ∧ digit_value c = Some d.
Proof.
  revert s. induction (N.lt_wf_0 x) as [x _ IH]. intros s Hpos.
  rewrite pretty_N_go_step by done.
  destruct (N.eq_0_gt_0_cases (x `div` 10)) as [->|Hdiv].
  - rewrite pretty_N_go_0. eexists _, _, _. split; [done|].
    apply digit_value_pretty. by apply N.mod_lt.
  - apply IH; [by apply N.div_lt|done].
Qed.

Lemma read_string_escaped (s : string) (rest : list Ascii.ascii) :
  read_string (chars (json_escape s) ++ Ascii.ascii_of_nat 34 :: rest)
  = Some (s, rest).
Proof.
  induction s as [|c s IH]; [done|]. cbn [json_escape].
  destruct (is_char 34 c || is_char 92 c) eqn:Hc.
  - change (read_string (Ascii.ascii_of_nat 92 :: c
                         :: (chars (json_escape s) ++ Ascii.ascii_of_nat 34 :: rest))
            = Some (String c s, rest)).
    cbn [read_string].
    change (is_char 34 (Ascii.ascii_of_nat 92)) with false.
    change (is_char 92 (Ascii.ascii_of_nat 92)) with true.
    cbv beta iota. by rewrite IH.
  - apply orb_false_iff in Hc as [Hq Hb].
    change (read_string (c :: (chars (json_escape s) ++ Ascii.ascii_of_nat 34 :: rest))
            = Some (String c s, rest)).
    cbn [read_string]. rewrite Hq, Hb. by rewrite IH.
Qed.

Lemma chars_json_string (s : string) :
  chars (json_string s) = quote_char :: (chars (json_escape s) ++ [quote_char])%list.
Proof. unfold json_string, dquote. by rewrite !chars_app. Qed.

Lemma json_dumps_list (l : list Value) :
  json_dumps (VList l) = "[" +:+ String.concat ", " (map json_dumps l) +:+ "]".
Proof. done. Qed.

Lemma json_dumps_dict (d : Row) :
  json_dumps (VDict d) = "{" +:+ String.concat ", " (map member_text d) +:+ "}".
Proof. done. Qed.

Lemma parse_depth_list (l : list Value) : parse_depth (VList l) = S (items_depth l).
Proof. done. Qed.

Lemma parse_depth_dict (d : Row) : parse_depth (VDict d) = S (members_depth d).
Proof. done. Qed.

Lemma pretty_positive_text (p : positive) :
  pretty (Z.pos p) = pretty_N_go (N.pos p) "".
Proof. done. Qed.

Lemma pretty_negative_text (p : positive) :
  pretty (Z.neg p) = "-" +:+ pretty_N_go (N.pos p) "".
Proof. done. Qed.

(** The text of a value starts with a character that is neither a space
    nor a closing bracket. *)
Lemma json_dumps_head (v : Value) :
  ∃ c tl, chars (json_dumps v) = c :: tl
          ∧ is_char 32 c = false ∧ is_char 93 c = false.
Proof.
  destruct v as [[|[|p|p]|s|t tz]|l|d].
  - by eexists _, _.
  - by eexists _, _.
  - change (json_dumps (VInt (Z.pos p))) with (pretty (Z.pos p)).
    rewrite pretty_positive_text.
    destruct (pretty_N_go_head (N.pos p) "") as (c & tl & dg & -> & Hd); [done|].
    exists c, tl. split_and!; [done|by eapply digit_is_no_char; [done|lia..]..].
  - change (json_dumps (VInt (Z.neg p))) with (pretty (Z.neg p)).
    rewrite pretty_negative_text, chars_app. by eexists _, _.
  - change (json_dumps (VStr s)) with (json_string s).
    rewrite chars_json_string. by eexists _, _.
  - change (json_dumps (VAtom (ADatetime t tz))) with (json_string (pretty t)).
    rewrite chars_json_string. by eexists _, _.
  - rewrite json_dumps_list, chars_app. by eexists _, _.
  - rewrite json_dumps_dict, chars_app. by eexists _, _.
Qed.

Lemma skip_spaces_head (c : Ascii.ascii) (s : list Ascii.ascii) :
  is_char 32 c = false → skip_spaces (c :: s) = c :: s.
Proof. intros Hc. simpl. by rewrite Hc. Qed.

Lemma skip_spaces_json_dumps (v : Value) (rest : list Ascii.ascii) :
  skip_spaces (chars (json_dumps v) ++ rest) = (chars (json_dumps v) ++ rest)%list.
Proof.
  destruct (json_dumps_head v) as (c & tl & -> & Hc & _).
  by apply skip_spaces_head.
Qed.

Lemma parse_number (p : positive) (rest : list Ascii.ascii) :
  ends_number rest →
  read_digits 0 (chars (pretty_N_go (N.pos p) "") ++ rest) = (Z.pos p, rest).
Proof.
  intros Hrest. destruct (read_digits_pretty (N.pos p)) as (k & _ & ->).
  simpl. by apply read_digits_end.
Qed.

(** Reading an atom back. *)
Lemma parse_atom (a : Atom) (fuel : nat) (s rest : list Ascii.ascii) :
  json_value (VAtom a) = true → ends_number rest →
  skip_spaces s = (chars (json_dumps (VAtom a)) ++ rest)%list →
  parse_value (S fuel) s = Some (VAtom a, rest).
Proof.
  intros Hv Hrest Hs. destruct a as [|[|p|p]|str|t tz]; [| | | | |done].
  - cbn [parse_value]. rewrite Hs. done.
  - cbn [parse_value]. rewrite Hs.
    change (chars (json_dumps (VInt 0)) ++ rest)%list
      with (Ascii.ascii_of_nat 48 :: rest).
    cbv beta iota.
    change (is_char 34 (Ascii.ascii_of_nat 48)) with false.
    change (is_char 110 (Ascii.ascii_of_nat 48)) with false.
    change (is_char 45 (Ascii.ascii_of_nat 48)) with false.
    change (is_char 91 (Ascii.ascii_of_nat 48)) with false.
    change (is_char 123 (Ascii.ascii_of_nat 48)) with false.
    change (digit_value (Ascii.ascii_of_nat 48)) with (Some 0%Z).
    cbv beta iota. cbn [read_digits].
    change (digit_value (Ascii.ascii_of_nat 48)) with (Some 0%Z).
    cbv beta iota. by rewrite read_digits_end.
  - cbn [parse_value]. rewrite Hs.
    change (json_dumps (VInt (Z.pos p))) with (pretty (Z.pos p)).
    rewrite pretty_positive_text.
    destruct (pretty_N_go_head (N.pos p) "") as (c & tl & dg & Htext & Hd).
    { done. }
    pose proof (parse_number p rest Hrest) as Hread. rewrite Htext in Hread |- *.
    change ((c :: tl) ++ rest)%list with (c :: (tl ++ rest))%list in Hread |- *.
    cbv beta iota.
    rewrite (digit_is_no_char 34 c dg), (digit_is_no_char 110 c dg),
      (digit_is_no_char 45 c dg), (digit_is_no_char 91 c dg),
      (digit_is_no_char 123 c dg) by (done || lia).
    rewrite Hd. by rewrite Hread.
  - cbn [parse_value]. rewrite Hs.
    change (json_dumps (VInt (Z.neg p))) with (pretty (Z.neg p)).
    rewrite pretty_negative_text, chars_app.
    change ((chars "-" ++ chars (pretty_N_go (N.pos p) "")) ++ rest)%list
      with (Ascii.ascii_of_nat 45 :: (chars (pretty_N_go (N.pos p) "") ++ rest))%list.
    cbv beta iota.
    change (is_char 34 (Ascii.ascii_of_nat 45)) with false.
    change (is_char 110 (Ascii.ascii_of_nat 45)) with false.
    change (is_char 45 (Ascii.ascii_of_nat 45)) with true.
    cbv beta iota. by rewrite (parse_number p rest Hrest).
  - cbn [parse_value]. rewrite Hs.
    change (json_dumps (VStr str)) with (json_string str).
    rewrite chars_json_string.
    change ((quote_char :: (chars (json_escape str) ++ [quote_char])) ++ rest)%list
      with (quote_char :: ((chars (json_escape str) ++ [quote_char]) ++ rest))%list.
    cbv beta iota. change (is_char 34 quote_char) with true. cbv beta iota.
    rewrite <- app_assoc.
    change ([quote_char] ++ rest)%list with (quote_char :: rest).
    by rewrite read_string_escaped.
Qed.

Lemma parse_items_reads_back (l : list Value) :
  Forall reads_back l → l ≠ [] → forallb json_value l = true →
  ∀ fuel s rest,
    (items_depth l ≤ fuel)%nat →
    skip_spaces s
    = (chars (String.concat ", " (map json_dumps l)) ++ Ascii.ascii_of_nat 93 :: rest)%list →
    parse_items fuel s = Some (l, rest).
Proof.
  induction 1 as [|x l Hx Hl IH]; [done|]. intros _ Hv fuel s rest Hfuel Hs.
  cbn [forallb] in Hv. apply andb_true_iff in Hv as [Hvx Hvl].
  destruct fuel as [|fuel]; [simpl in Hfuel; lia|].
  change (items_depth (x :: l)) with (S (parse_depth x `max` items_depth l)) in Hfuel.
  cbn [parse_items]. destruct l as [|y l].
  - change (String.concat ", " (map json_dumps [x])) with (json_dumps x) in Hs.
    rewrite (Hx Hvx fuel s (Ascii.ascii_of_nat 93 :: rest)); [reflexivity|lia|done|done].
  - rewrite map_cons, (map_cons _ y), concat_cons_cons, !chars_app in Hs.
    rewrite <- !app_assoc in Hs.
    change (chars ", " ++ ?t)%list
      with (Ascii.ascii_of_nat 44 :: Ascii.ascii_of_nat 32 :: t) in Hs.
    rewrite (λ Hd He, Hx Hvx fuel s _ Hd He Hs); [|lia|done].
    cbn [mbind option_bind skip_spaces].
    change (is_char 32 (Ascii.ascii_of_nat 44)) with false. cbv beta iota.
    change (is_char 44 (Ascii.ascii_of_nat 44)) with true. cbv beta iota.
    rewrite (IH ltac:(done) Hvl fuel _ rest); [done|lia|].
    cbn [skip_spaces]. change (is_char 32 (Ascii.ascii_of_nat 32)) with true.
    cbv beta iota. rewrite <- map_cons.
    destruct (json_dumps_head y) as (c & tl & Hy & Hc & _).
    change (String.concat ", " (map json_dumps (y :: l)))
      with (String.concat ", " (json_dumps y :: map json_dumps l)).
    destruct (map json_dumps l) as [|z zs].
    + change (String.concat ", " [json_dumps y]) with (json_dumps y).
      by rewrite skip_spaces_json_dumps.
    + rewrite concat_cons_cons, chars_app, <- app_assoc.
      by rewrite skip_spaces_json_dumps.
Qed.

Lemma member_text_chars (k : string) (x : Value) (rest : list Ascii.ascii) :
  (chars (member_text (k, x)) ++ rest)%list
  = quote_char
    :: (chars (json_escape k)
        ++ quote_char :: Ascii.ascii_of_nat 58 :: Ascii.ascii_of_nat 32
           :: (chars (json_dumps x) ++ rest))%list.
Proof.
  unfold member_text. rewrite !chars_app, chars_json_string.
  rewrite <- !app_assoc. cbn [app]. by rewrite <- app_assoc.
Qed.

Lemma parse_members_reads_back (d : Row) :
  Forall (λ kv, reads_back kv.2) d → d ≠ [] →
  forallb (λ '(_, x), json_value x) d = true →
  ∀ fuel s rest,
    (members_depth d ≤ fuel)%nat →
    skip_spaces s
    = (chars (String.concat ", " (map member_text d)) ++ Ascii.ascii_of_nat 125 :: rest)%list →
    parse_members fuel s = Some (d, rest).
Proof.
  induction 1 as [|[k x] d Hx Hd IH]; [done|]. intros _ Hv fuel s rest Hfuel Hs.
  cbn [forallb] in Hv. apply andb_true_iff in Hv as [Hvx Hvd].
  destruct fuel as [|fuel]; [simpl in Hfuel; lia|].
  change (members_depth ((k, x) :: d))
    with (S (parse_depth x `max` members_depth d)) in Hfuel.
  simpl in Hx.
  assert (Hstart : ∀ tail,
    skip_spaces s = (chars (member_text (k, x)) ++ tail)%list →
    ends_number tail →
    parse_members (S fuel) s
    = match skip_spaces tail with
      | c :: rest =>
          if is_char 44 c
          then '(d, rest) ← parse_members fuel rest; Some ((k, x) :: d, rest)
          else if is_char 125 c then Some ([(k, x)], rest)
          else None
      | [] => None
      end).
  { intros tail Hs' Htail. cbn [parse_members]. rewrite Hs', member_text_chars.
    change (is_char 34 quote_char) with true. cbv beta iota.
    rewrite read_string_escaped. cbn [mbind option_bind skip_spaces].
    change (is_char 32 (Ascii.ascii_of_nat 58)) with false. cbv beta iota.
    change (is_char 58 (Ascii.ascii_of_nat 58)) with true. cbv beta iota.
    rewrite (Hx Hvx fuel _ tail); [done|lia|done|].
    cbn [skip_spaces]. change (is_char 32 (Ascii.ascii_of_nat 32)) with true.
    cbv beta iota. apply skip_spaces_json_dumps. }
  destruct d as [|[k' y] d].
  - change (String.concat ", " (map member_text [(k, x)]))
      with (member_text (k, x)) in Hs.
    rewrite (Hstart _ Hs); [reflexivity|done].
  - rewrite map_cons, (map_cons _ (k', y)), concat_cons_cons, chars_app in Hs.
    rewrite chars_app in Hs. rewrite <- !app_assoc in Hs.
    change (chars ", " ++ ?t)%list
      with (Ascii.ascii_of_nat 44 :: Ascii.ascii_of_nat 32 :: t) in Hs.
    rewrite (Hstart _ Hs); [|done].
    cbn [skip_spaces].
    change (is_char 32 (Ascii.ascii_of_nat 44)) with false. cbv beta iota.
    change (is_char 44 (Ascii.ascii_of_nat 44)) with true. cbv beta iota.
    rewrite (IH ltac:(done) Hvd fuel _ rest); [done|lia|].
    cbn [skip_spaces]. change (is_char 32 (Ascii.ascii_of_nat 32)) with true.
    cbv beta iota. rewrite <- map_cons.
    change (String.concat ", " (map member_text ((k', y) :: d)))
      with (String.concat ", " (member_text (k', y) :: map member_text d)).
    destruct (map member_text d) as [|z zs].
    + change (String.concat ", " [member_text (k', y)]) with (member_text (k', y)).
      rewrite member_text_chars. by apply skip_spaces_head.
    + rewrite concat_cons_cons, chars_app, <- app_assoc.
      rewrite member_text_chars. by apply skip_spaces_head.
Qed.

(** Every JSON value is read back from its text. *)
Lemma parse_value_reads_back (v : Value) : reads_back v.
Proof.
  induction v as [a|l IH|d IH] using Value_nested_ind;
    intros Hv fuel s rest Hfuel Hrest Hs.
  - destruct fuel as [|fuel]; [simpl in Hfuel; lia|]. by apply parse_atom.
  - rewrite parse_depth_list in Hfuel.
    destruct fuel as [|fuel]; [lia|].
    rewrite json_dumps_list, !chars_app, <- !app_assoc in Hs.
    change (chars "[" ++ ?t)%list with (Ascii.ascii_of_nat 91 :: t) in Hs.
    change (chars "]" ++ rest)%list with (Ascii.ascii_of_nat 93 :: rest) in Hs.
    cbn [parse_value]. rewrite Hs. cbv beta iota.
    change (is_char 34 (Ascii.ascii_of_nat 91)) with false.
    change (is_char 110 (Ascii.ascii_of_nat 91)) with false.
    change (is_char 45 (Ascii.ascii_of_nat 91)) with false.
    change (is_char 91 (Ascii.ascii_of_nat 91)) with true. cbv beta iota.
    destruct l as [|x l]; [reflexivity|].
    assert (Hitems : skip_spaces
                       (chars (String.concat ", " (map json_dumps (x :: l)))
                        ++ Ascii.ascii_of_nat 93 :: rest)
                     = (chars (String.concat ", " (map json_dumps (x :: l)))
                        ++ Ascii.ascii_of_nat 93 :: rest)%list
                     ∧ ∃ c tl, (chars (String.concat ", " (map json_dumps (x :: l)))
                                ++ Ascii.ascii_of_nat 93 :: rest)%list = c :: tl
                               ∧ is_char 93 c = false).
    { destruct (json_dumps_head x) as (c & tl & Hx & Hc & Hc').
      rewrite map_cons. destruct (map json_dumps l) as [|z zs].
      - change (String.concat ", " [json_dumps x]) with (json_dumps x).
        rewrite Hx. split; [by apply skip_spaces_head|]. by eexists _, _.
      - rewrite concat_cons_cons, chars_app, <- app_assoc, Hx.
        split; [by apply skip_spaces_head|]. by eexists _, _. }
    destruct Hitems as [Hskip (c & tl & Htext & Hc)].
    rewrite Hskip. rewrite Htext at 1. rewrite Hc.
    simpl in Hv.
    by rewrite (parse_items_reads_back (x :: l) IH ltac:(done) Hv fuel _ rest
                  ltac:(lia) Hskip).
  - rewrite parse_depth_dict in Hfuel.
    destruct fuel as [|fuel]; [lia|].
    rewrite json_dumps_dict, !chars_app, <- !app_assoc in Hs.
    change (chars "{" ++ ?t)%list with (Ascii.ascii_of_nat 123 :: t) in Hs.
    change (chars "}" ++ rest)%list with (Ascii.ascii_of_nat 125 :: rest) in Hs.
    cbn [parse_value]. rewrite Hs. cbv beta iota.
    change (is_char 34 (Ascii.ascii_of_nat 123)) with false.
    change (is_char 110 (Ascii.ascii_of_nat 123)) with false.
    change (is_char 45 (Ascii.ascii_of_nat 123)) with false.
    change (is_char 91 (Ascii.ascii_of_nat 123)) with false.
    change (is_char 123 (Ascii.ascii_of_nat 123)) with true. cbv beta iota.
    destruct d as [|[k x] d]; [reflexivity|].
    assert (Hmembers : skip_spaces
                         (chars (String.concat ", " (map member_text ((k, x) :: d)))
                          ++ Ascii.ascii_of_nat 125 :: rest)
                       = (chars (String.concat ", " (map member_text ((k, x) :: d)))
                          ++ Ascii.ascii_of_nat 125 :: rest)%list
                       ∧ ∃ tl, (chars (String.concat ", " (map member_text ((k, x) :: d)))
                                ++ Ascii.ascii_of_nat 125 :: rest)%list
                               = quote_char :: tl).
    { rewrite map_cons. destruct (map member_text d) as [|z zs].
      - change (String.concat ", " [member_text (k, x)]) with (member_text (k, x)).
        rewrite member_text_chars. split; [by apply skip_spaces_head|]. by eexists.
      - rewrite concat_cons_cons, chars_app, <- app_assoc, member_text_chars.
        split; [by apply skip_spaces_head|]. by eexists. }
    destruct Hmembers as [Hskip (tl & Htext)].
    rewrite Hskip. rewrite Htext at 1.
    change (is_char 125 quote_char) with false. cbv beta iota.
    simpl in Hv.
    by rewrite (parse_members_reads_back ((k, x) :: d) IH ltac:(done) Hv fuel _ rest
                  ltac:(lia) Hskip).
Qed.

Lemma items_depth_length (l : list Value) :
  Forall (λ v, parse_depth v ≤ length (chars (json_dumps v)))%nat l →
  (items_depth l ≤ S (length (chars (String.concat ", " (map json_dumps l)))))%nat.
Proof.
  induction 1 as [|x l Hx _ IH]; [simpl; lia|]. cbv beta in Hx.
  change (items_depth (x :: l)) with (S (parse_depth x `max` items_depth l)).
  destruct l as [|y l].
  - change (String.concat ", " (map json_dumps [x])) with (json_dumps x).
    change (items_depth []) with 0%nat. lia.
  - rewrite map_cons. rewrite map_cons in IH |- *.
    rewrite concat_cons_cons, !chars_app, !length_app.
    change (length (chars ", ")) with 2%nat. lia.
Qed.

Lemma members_depth_length (d : Row) :
  Forall (λ kv, parse_depth kv.2 ≤ length (chars (json_dumps kv.2)))%nat d →
  (members_depth d ≤ S (length (chars (String.concat ", " (map member_text d)))))%nat.
Proof.
  induction 1 as [|[k x] d Hx _ IH]; [simpl; lia|].
  change (members_depth ((k, x) :: d))
    with (S (parse_depth x `max` members_depth d)).
  simpl in Hx.
  assert (Hmember : (length (chars (json_dumps x))
                     ≤ length (chars (member_text (k, x))))%nat).
  { pose proof (member_text_chars k x []) as Hm. rewrite !app_nil_r in Hm.
    rewrite Hm. cbn [length]. rewrite length_app. cbn [length]. lia. }
  destruct d as [|[k' y] d].
  - change (String.concat ", " (map member_text [(k, x)])) with (member_text (k, x)).
    change (members_depth []) with 0%nat. lia.
  - rewrite map_cons. rewrite map_cons in IH |- *.
    rewrite concat_cons_cons, !chars_app, !length_app.
    change (length (chars ", ")) with 2%nat. lia.
Qed.

Lemma parse_depth_length (v : Value) :
  (parse_depth v ≤ length (chars (json_dumps v)))%nat.
Proof.
  induction v as [a|l IH|d IH] using Value_nested_ind.
  - destruct (json_dumps_head (VAtom a)) as (c & tl & -> & _). simpl. lia.
  - rewrite parse_depth_list, json_dumps_list, !chars_app, !length_app.
    pose proof (items_depth_length l IH). simpl. lia.
  - rewrite parse_depth_dict, json_dumps_dict, !chars_app, !length_app.
    pose proof (members_depth_length d IH). simpl. lia.
Qed.

(** The codec reads back every JSON value from the text it writes for it. *)
Lemma json_loads_dumps (v : Value) :
  json_value v = true → json_loads (json_dumps v) = inr v.
Proof.
  intros Hv. unfold json_loads.
  rewrite (parse_value_reads_back v Hv _ _ []); [done| |done|].
  - pose proof (parse_depth_length v). lia.
  - rewrite <- (app_nil_r (chars (json_dumps v))) at 1.
    apply skip_spaces_json_dumps.
Qed.

Section JSONView.
Context `{Collaborators}.
Implicit Types (w : World).

(** C6, as amended. The JSON view runs the query with the success
    callbacks applied and returns the JSON text of what they return, which
    is the output of the full-result view; an exception of the run is the
    view's. With the JSON codec, decoding the text gives back that output
    whenever it is made of JSON values. *)
Theorem json_view_serialises_full_result w :
  (∀ rows w', Query_run w = (inr rows, w') →
     Select_run true w = (inr (invoke (query w') (rows_value rows)), w')
     ∧ SelectJSON_run w
       = (inr (dump_json (invoke (query w') (rows_value rows))), w'))
  ∧ (∀ e w', Select_run true w = (inl e, w') → SelectJSON_run w = (inl e, w'))
  ∧ (dump_json = json_dumps →
     (∀ text, load_json (VStr text) = json_loads text) →
     ∀ output w', Select_run true w = (inr output, w') →
       json_value output = true →
       ∃ text, SelectJSON_run w = (inr text, w')
               ∧ load_json (VStr text) = inr output).
Proof.
  split_and!.
  - intros rows w' Hq. split; [exact (Select_run_returns _ true _ _ Hq)|].
    unfold SelectJSON_run, bind at 1.
    by rewrite (Select_run_returns _ true _ _ Hq).
  - intros e w' Hs. unfold SelectJSON_run, bind at 1. by rewrite Hs.
  - intros Hdump Hload output w' Hs Hjson. exists (dump_json output). split.
    + unfold SelectJSON_run, bind at 1. by rewrite Hs.
    + rewrite Hload, Hdump. by apply json_loads_dumps.
Qed.
End JSONView.

(** * The further properties on examples *)

Lemma call_chain_check_raises_iff_witness :
  _check_valid_call_chain [SelColumn eleven_links] = inl CallChainError
  ∧ _check_valid_call_chain [SelReadable "%s" [eleven_links]] = inr true.
Proof.
  destruct (call_chain_check_raises_iff [SelColumn eleven_links]) as ([_ Hraise] & _).
  destruct (call_chain_check_raises_iff [SelReadable "%s" [eleven_links]])
    as (_ & [_ Hpass] & _).
  split.
  - apply Hraise. exists eleven_links. split; [left|simpl; lia].
  - apply Hpass. intros c Hc. apply list_elem_of_singleton in Hc. done.
Defined.

Lemma join_derivation_ignores_stored_aliases_witness :
  ∃ joins w' w'',
    _get_joins [SelColumn band_manager_boss_name] (fresh joined_query) = (inr joins, w')
    ∧ table_alias w' ≠ table_alias (fresh joined_query)
    ∧ _get_joins [SelColumn band_manager_boss_name] w' = (inr joins, w'').
Proof.
  destruct (_get_joins [SelColumn band_manager_boss_name] (fresh joined_query))
    as [[e|joins] w'] eqn:Hrun; [vm_compute in Hrun; discriminate|].
  destruct (join_derivation_ignores_stored_aliases
              [SelColumn band_manager_boss_name] (fresh joined_query)
              (fresh joined_query)) as (_ & Hagain & _).
  destruct (Hagain joins w' Hrun) as (_ & w'' & Hrun2).
  exists joins, w', w''. split_and!; [done| |done].
  vm_compute in Hrun. injection Hrun as _ <-. vm_compute. discriminate.
Defined.

Lemma no_call_chain_no_join_witness :
  without_call_chains name_and_count
  ∧ _get_joins name_and_count (fresh joined_query) = (inr [], fresh joined_query).
Proof.
  assert (Hw : without_call_chains name_and_count)
    by (repeat constructor).
  split; [exact Hw|]. by apply no_call_chain_no_join.
Defined.

Lemma build_joins_closed_form_witness :
  ∃ w',
    combined_joins (fresh joined_query)
    = (inr [left_join (quoted "manager") "band$manager" (quoted "band")
                      "manager" "id";
            left_join (quoted "manager") "band$manager$manager$boss"
                      "band$manager" "boss" "id"], w').
Proof.
  destruct (build_joins_closed_form (fresh joined_query) eq_refl) as (w' & Hrun & _).
  exists w'. rewrite Hrun. reflexivity.
Defined.

Lemma build_changes_only_the_selection_witness :
  ∃ r w',
    default_querystrings (H := demo [] []) (fresh paged_query) = (r, w')
    ∧ query w' = paged_query.
Proof.
  destruct (default_querystrings (H := demo [] []) (fresh paged_query))
    as [r w'] eqn:Hb.
  destruct (build_changes_only_the_selection (H := demo [] []) _ _ _ Hb)
    as (_ & Hsame & _).
  exists r, w'. split; [done|]. by apply Hsame.
Defined.

Lemma built_query_string_shape_witness :
  ∃ joins,
    assemble (H := demo [] []) paged_query joins
    = inr [QS (("SELECT{} " +:+ quoted "manager.name" +:+ " FROM " +:+ quoted "band")
               +:+ joins_text joins +:+ " WHERE {}{}{}{}")
              [QS "" []; QS "{} = {}" []; QS " ORDER BY {}" [];
               QS " LIMIT 10" []; QS " OFFSET 20" []]].
Proof.
  exists [].
  destruct (assemble (H := demo [] []) paged_query []) as [e|qs] eqn:Ha;
    [vm_compute in Ha; discriminate|].
  rewrite (built_query_string_shape (H := demo [] []) paged_query [] qs Ha).
  vm_compute. reflexivity.
Defined.

Lemma rebuild_returns_the_same_witness :
  ∃ r w' w'',
    default_querystrings (H := demo [] []) (fresh paged_query) = (r, w')
    ∧ default_querystrings (H := demo [] []) w' = (r, w'')
    ∧ query w' = paged_query.
Proof.
  destruct (default_querystrings (H := demo [] []) (fresh paged_query))
    as [r w'] eqn:Hb.
  destruct (rebuild_returns_the_same (H := demo [] []) (fresh paged_query) r w')
    as (Hq & w'' & Hb2); [done|by left|done|].
  by exists r, w', w''.
Defined.

Lemma secret_only_selection_becomes_select_all_witness :
  ∃ r w' r2 w'',
    default_querystrings (H := demo [] []) (fresh secret_only_query) = (r, w')
    ∧ selected_columns (query w') = []
    ∧ default_querystrings (H := demo [] []) w' = (r2, w'')
    ∧ selected_columns (query w'')
      = [SelColumn (plain_column "id" py_int); SelColumn (plain_column "name" py_str)].
Proof.
  destruct (default_querystrings (H := demo [] []) (fresh secret_only_query))
    as [r w'] eqn:Hb.
  destruct (default_querystrings (H := demo [] []) w') as [r2 w''] eqn:Hb2.
  destruct (secret_only_selection_becomes_select_all (H := demo [] [])
              (fresh secret_only_query) r w')
    as (Hempty & Hnext); [done|done|by repeat constructor|done|done|].
  exists r, w', r2, w''. split_and!; [done..|].
  by rewrite (Hnext r2 w'' Hb2).
Defined.

Lemma sqlite_conversion_stops_at_value_error_witness :
  convert_rows (H := demo [] []) "genres" py_int rows_with_text_ids
  = inr [[("name", VStr "Pythonistas"); ("genres", VList [VInt 1; VInt 2])];
         [("name", VStr "Rustaceans"); ("genres", VList [])];
         [("name", VStr "C-Sharps"); ("genres", VList [VStr "x"])];
         [("name", VStr "Gophers"); ("genres", VList [VStr "3"])]].
Proof.
  destruct (convert_rows (H := demo [] []) "genres" py_int rows_with_text_ids)
    as [e|response'] eqn:Hrun; [vm_compute in Hrun; discriminate|].
  destruct (sqlite_conversion_stops_at_value_error (H := demo [] [])
              "genres" py_int rows_with_text_ids) as [_ Hstop].
  destruct (Hstop response' Hrun) as (n & converted & _ & _ & _).
  vm_compute in Hrun. by injection Hrun as <-.
Defined.

Lemma response_handler_keeps_row_count_witness :
  ∃ response',
    response_handler (H := demo [] genre_rows)
      (set_selected_columns [SelM2M band_genres] (select_from_band postgres))
      rows_with_genre_ids = inr response'
    ∧ length response' = 2%nat.
Proof.
  destruct (response_handler (H := demo [] genre_rows)
              (set_selected_columns [SelM2M band_genres] (select_from_band postgres))
              rows_with_genre_ids) as [e|response'] eqn:Hrun;
    [vm_compute in Hrun; discriminate|].
  exists response'. split; [done|].
  by rewrite (response_handler_keeps_row_count (H := demo [] genre_rows) _ _ _ Hrun).
Defined.

Lemma timezone_correction_idempotent_witness :
  normalise_timestamps select_starts concert_rows
  = [[("starts", VAtom (ADatetime 1700000000 (Some "Europe/London")))];
     [("starts", VAtom (ADatetime 1700003600 (Some "UTC")))];
     [("starts", VNone)]]
  ∧ normalise_timestamps select_starts (normalise_timestamps select_starts concert_rows)
    = normalise_timestamps select_starts concert_rows.
Proof.
  split; [reflexivity|].
  by destruct (timezone_correction_idempotent select_starts concert_rows) as [Hi _].
Defined.

Lemma splice_touches_only_the_relation_witness :
  ∃ response',
    _splice_m2m_rows (H := demo [] genre_rows) rows_with_genre_ids "genres"
                     band_genres false = inr response'
    ∧ Forall2 (λ row row', dict_keys row' = dict_keys row
                           ∧ dict_get "name" row' = dict_get "name" row)
              rows_with_genre_ids response'.
Proof.
  destruct (_splice_m2m_rows (H := demo [] genre_rows) rows_with_genre_ids "genres"
                             band_genres false) as [e|response'] eqn:Hrun;
    [vm_compute in Hrun; discriminate|].
  exists response'. split; [done|].
  eapply Forall2_impl;
    [exact (splice_touches_only_the_relation (H := demo [] genre_rows) _ _ _ _ _ Hrun)|].
  intros row row' [Hkeys Hother]. split; [done|]. by apply Hother.
Defined.

Lemma splice_without_identifiers_witness :
  _splice_m2m_rows (H := demo [] genre_rows) rows_without_genres "genres"
                   band_genres true = inr rows_without_genres.
Proof.
  apply (splice_without_identifiers (H := demo [] genre_rows)).
  - by repeat constructor.
  - done.
Defined.

Lemma mapping_holds_the_last_row_witness :
  ∃ m, mapping_of (λ row, subscript row "name") genre_rows_twice = inr m
       ∧ m !! AInt 1 = Some (VStr "Hard rock").
Proof.
  destruct (mapping_of (λ row, subscript row "name") genre_rows_twice)
    as [e|m] eqn:Hm; [vm_compute in Hm; discriminate|].
  exists m. split; [done|].
  apply (mapping_holds_the_last_row (λ row, subscript row "name")
           [[("name", VStr "Rock"); ("mapping_key", VInt 1)];
            [("name", VStr "Folk"); ("mapping_key", VInt 2)]]
           [] [("name", VStr "Hard rock"); ("mapping_key", VInt 1)]);
    [exact Hm|done|done|]. intros r Hr. by apply elem_of_nil in Hr.
Defined.

Lemma first_view_witness :
  ∃ w',
    First_run (H := demo band_rows []) (fresh (select_name postgres))
    = (inr (VDict [("name", VStr "Pythonistas")]), w')
    ∧ ∃ w'', First_run (H := demo [] []) (fresh (select_name postgres))
             = (inr VNone, w'').
Proof.
  destruct (Query_run (H := demo band_rows []) (fresh (select_name postgres)))
    as [[e|rows] w'] eqn:Hrun; [vm_compute in Hrun; discriminate|].
  destruct (Query_run (H := demo [] []) (fresh (select_name postgres)))
    as [[e|rows0] w''] eqn:Hrun0; [vm_compute in Hrun0; discriminate|].
  destruct (first_view (H := demo band_rows []) (fresh (select_name postgres)))
    as [Hfirst _].
  destruct (first_view (H := demo [] []) (fresh (select_name postgres)))
    as [Hnone _].
  exists w'. rewrite (Hfirst rows w' Hrun). split.
  - vm_compute in Hrun. injection Hrun as <- <-. reflexivity.
  - exists w''. rewrite (Hnone rows0 w'' Hrun0).
    vm_compute in Hrun0. injection Hrun0 as <- <-. reflexivity.
Defined.

Lemma build_returns_iff_witness :
  (∃ querystring w',
     default_querystrings (H := demo [] []) (fresh paged_query)
     = (inr [querystring], w'))
  ∧ ¬ ∃ querystring w',
        default_querystrings (H := demo [] [])
          (fresh (offset 20 (select_name sqlite))) = (inr [querystring], w').
Proof.
  destruct (build_returns_iff (H := demo [] []) (fresh paged_query)) as ([_ Hyes] & _).
  destruct (build_returns_iff (H := demo [] [])
              (fresh (offset 20 (select_name sqlite)))) as ([Hno _] & _).
  split.
  - apply Hyes. split_and!; [reflexivity..|]. by intros [? _].
  - intros Hb. destruct (Hno Hb) as (_ & _ & Hn). apply Hn.
    split_and!; [reflexivity|by eexists|reflexivity].
Defined.

Lemma sqlite_distinct_never_reaches_validation_witness :
  (∃ msg, distinct (Some []) (select_name sqlite) = inl (NotImplementedError msg))
  ∧ ∃ q' querystring w',
      distinct None (select_name sqlite) = inr q'
      ∧ default_querystrings (H := demo [] []) (set_query q' (fresh (select_name sqlite)))
        = (inr [querystring], w').
Proof.
  destruct (sqlite_distinct_never_reaches_validation (H := demo [] [])
              (fresh (select_name sqlite)) (Some []) eq_refl) as [Hraise _].
  destruct (sqlite_distinct_never_reaches_validation (H := demo [] [])
              (fresh (select_name sqlite)) None eq_refl) as [_ Hbuild].
  split; [apply Hraise; by eexists|].
  destruct (Hbuild _ eq_refl) as (_ & _ & Hb).
  destruct Hb as (querystring & w' & Hb); [reflexivity|by left|].
  eexists _, querystring, w'. split; [reflexivity|exact Hb].
Defined.

Lemma count_takes_column_or_distinct_witness :
  (∃ msg, Count_init (Some (plain_column "name" py_str))
                     (Some [plain_column "id" py_int]) "count"
          = inl (ValueError msg))
  ∧ ∃ self,
      Count_init (Some (plain_column "name" py_str)) (Some []) "count" = inr self
      ∧ Count_get_select_string (H := demo [] []) sqlite self
        = "COUNT(" +:+ quoted "name" +:+ ") AS " +:+ quoted "count".
Proof.
  destruct (count_takes_column_or_distinct (H := demo [] []) sqlite
              (Some (plain_column "name" py_str)) (Some [plain_column "id" py_int])
              "count") as [[_ Hraise] _].
  destruct (count_takes_column_or_distinct (H := demo [] []) sqlite
              (Some (plain_column "name" py_str)) (Some []) "count") as [_ Hrender].
  split; [apply Hraise; split; eauto|].
  eexists. split; [reflexivity|]. rewrite (Hrender _ eq_refl). reflexivity.
Defined.

Lemma plain_response_is_returned_as_is_witness :
  response_handler (H := demo [] []) (select_name postgres) band_rows = inr band_rows.
Proof.
  apply (plain_response_is_returned_as_is (H := demo [] [])).
  - reflexivity.
  - intros alias tz Hin. by apply elem_of_nil in Hin.
  - by left.
Defined.

(** * Nested output and the JSON view on examples *)


Lemma json_view_serialises_full_result_witness :
  ∃ text output w',
    Select_run (H := demo band_rows []) true (fresh (select_name postgres))
    = (inr output, w')
    ∧ json_value output = true
    ∧ SelectJSON_run (H := demo band_rows []) (fresh (select_name postgres))
      = (inr text, w')
    ∧ load_json (Collaborators := demo band_rows []) (VStr text) = inr output.
Proof.
  destruct (Select_run (H := demo band_rows []) true (fresh (select_name postgres)))
    as [[e|output] w'] eqn:Hs; [vm_compute in Hs; discriminate|].
  assert (Hjson : json_value output = true).
  { vm_compute in Hs. by injection Hs as <- _. }
  destruct (json_view_serialises_full_result (H := demo band_rows [])
              (fresh (select_name postgres))) as (_ & _ & Hdecode).
  destruct (Hdecode eq_refl (λ _, eq_refl) output w' Hs Hjson)
    as (text & Htext & Hload).
  by exists text, output, w'.
Defined.

(** C6 fails on a query with a success callback: the JSON view serialises
    what the callback returns, not the rows that the run gives with the
    callback pass disabled. It also fails on rows that hold a [datetime]:
    the text has a string in its place, and so has the decoded structure. *)
Lemma json_view_applies_callbacks_and_writes_datetimes_as_strings :
  (∃ text rows w',
     SelectJSON_run (H := demo band_rows [])
                    (fresh (with_callback envelope (select_name postgres)))
     = (inr text, w')
     ∧ Select_run (H := demo band_rows []) false
                  (fresh (with_callback envelope (select_name postgres)))
       = (inr rows, w')
     ∧ rows = rows_value band_rows
     ∧ text = dump_json (Collaborators := demo band_rows []) (envelope rows)
     ∧ text ≠ dump_json (Collaborators := demo band_rows []) rows)
  ∧ ∃ text output decoded w',
      Select_run (H := demo concert_rows []) true (fresh select_starts)
      = (inr output, w')
      ∧ SelectJSON_run (H := demo concert_rows []) (fresh select_starts)
        = (inr text, w')
      ∧ load_json (Collaborators := demo concert_rows []) (VStr text) = inr decoded
      ∧ decoded ≠ output.
Proof.
  split.
  - eexists _, _, _. split; [vm_compute; reflexivity|].
    split; [vm_compute; reflexivity|]. split; [reflexivity|].
    split; [reflexivity|]. vm_compute. discriminate.
  - eexists _, _, _, _. split; [vm_compute; reflexivity|].
    split; [vm_compute; reflexivity|]. split; [vm_compute; reflexivity|].
    discriminate.
Defined.
